(** * Velocity estimators of velocity.py: FOAW, median filter, Levant

    A shallow embedding of [foaw], [median_filter], [f] and [levant] from
    velocity.py, and the properties of their specification; then of
    [leastsquares], [maxmin] and [avgfilt], with further properties of all
    of them.

    Numbers.  The position samples, the sample rate and the tuning
    parameters are read as exact rationals ([Qc], canonical fractions with
    Leibniz equality); rounding of IEEE doubles is outside this model.
    Python integers (loop counters, [n], [rk]) are [Z].

    Errors.  Python exceptions are values of [exn]; a call returns
    [Ok result] or [Raise e].  Indexing follows Python: a negative index
    counts from the end, an index outside the array raises [IndexError];
    [/] is true division on Python numbers and raises [ZeroDivisionError]
    on a zero divisor ([pdiv]); a division by a non-zero literal cannot
    raise and is written with [Qc]'s [/].

    Arrays.  [zeros], [getitem] and [setitem] model the numpy array that the
    estimators fill in place, on stdpp's list lookup and insert. *)

From Stdlib Require Import ZArith QArith Qcanon Qround List Bool Lia Field.
From stdpp Require Import base list numbers sorting.

Local Open Scope Z_scope.
Local Open Scope Qc_scope.

(** ** Exceptions and the error monad *)

Inductive exn : Type :=
  | ZeroDivisionError
  | IndexError.

Inductive res (A : Type) : Type :=
  | Ok (a : A)
  | Raise (e : exn).

Arguments Ok {A} a.
Arguments Raise {A} e.

#[global] Instance res_ret : MRet res := λ A, @Ok A.

#[global] Instance res_bind : MBind res := λ A B k m,
  match m with
  | Ok a => k a
  | Raise e => Raise e
  end.

(** ** Python loops

    [for i in l: body] over a loop state [S]; the body says whether the loop
    goes on ([Next]) or leaves through [break] ([Break]). *)

Inductive ctl (S : Type) : Type :=
  | Next (s : S)
  | Break (s : S).

Arguments Next {S} s.
Arguments Break {S} s.

Fixpoint for_in {S : Type} (l : list Z) (body : Z → S → res (ctl S)) (s : S)
  : res S :=
  match l with
  | [] => Ok s
  | i :: l' =>
      match body i s with
      | Raise e => Raise e
      | Ok (Break s') => Ok s'
      | Ok (Next s') => for_in l' body s'
      end
  end.

(** [range(a, b)]: the integers [a, a+1, ..., b-1], empty when [b <= a]. *)
Definition range (a b : Z) : list Z := seqZ a (b - a).

(** [len(a)] as a Python integer. *)
Definition len {A : Type} (a : list A) : Z := Z.of_nat (length a).

(** ** Arrays *)

(** [zeros(n)] *)
Definition zeros (n : nat) : list Qc := replicate n 0.

(** The position an index denotes: negative indices count from the end. *)
Definition norm_index {A : Type} (a : list A) (z : Z) : Z :=
  if bool_decide (z < 0)%Z then (z + len a)%Z else z.

(** [a[z]] *)
Definition getitem {A : Type} (a : list A) (z : Z) : res A :=
  let i := norm_index a z in
  if bool_decide (0 ≤ i)%Z then
    match a !! Z.to_nat i with
    | Some x => Ok x
    | None => Raise IndexError
    end
  else Raise IndexError.

(** [a[z] = v] *)
Definition setitem {A : Type} (a : list A) (z : Z) (v : A) : res (list A) :=
  let i := norm_index a z in
  if bool_decide (0 ≤ i < len a)%Z then Ok (<[Z.to_nat i := v]> a)
  else Raise IndexError.

(** The bound of a slice: counted from the end when negative, then clipped
    to the array. *)
Definition clip_index {A : Type} (a : list A) (z : Z) : nat :=
  Z.to_nat (Z.max 0 (Z.min (norm_index a z) (len a))).

(** [a[lo:hi]] *)
Definition slice {A : Type} (a : list A) (lo hi : Z) : list A :=
  take (clip_index a hi - clip_index a lo) (drop (clip_index a lo) a).

(** ** Arithmetic *)

(** A Python integer used in float arithmetic. *)
Definition float (z : Z) : Qc := Qc_of_Z z.

(** [a / b] *)
Definition pdiv (a b : Qc) : res Qc :=
  if bool_decide (b = 0) then Raise ZeroDivisionError else Ok (a / b).

(** [sum(l)]: left to right, from 0. *)
Definition sum (l : list Qc) : Qc := foldl Qcplus 0 l.

(** [abs(x)] *)
Definition Qcabs (x : Qc) : Qc := if bool_decide (x < 0) then - x else x.

(** [sign(x)]: -1, 0 or 1. *)
Definition sign (x : Qc) : Qc :=
  if bool_decide (x < 0) then - (1) else if bool_decide (0 < x) then 1 else 0.

(** ** FOAW: first-order adaptive windowing *)

Section Foaw.

Variable pos : list Qc.
Variable T : Qc.
Variable noise_max : Qc.

(** Lines 34-41: the slope over the window of the last [i+1] samples. *)
Definition foaw_slope (best : bool) (k i : Z) : res Qc :=
  if best then
    s0 ← mapM (λ j, getitem pos (k - j)) (range 0 (i + 1));
    s1 ← mapM (λ j, pkj ← getitem pos (k - j); mret (pkj * float j))
              (range 0 (i + 1));
    pdiv (float i * sum s0 - float 2 * sum s1)
         (T * float i * float (i + 1) * float (i + 2) / float 6)
  else
    pk ← getitem pos k;
    pki ← getitem pos (k - i);
    pdiv (pk - pki) (float i * T).

(** Lines 44-52: the check of each middle point; the loop state is the
    flag [outside]. *)
Definition foaw_outside (k i : Z) (b : Qc) : res bool :=
  for_in (range 1 i) (λ j outside,
    pk ← getitem pos k;
    let ykj := pk - b * float j * T in
    pkj ← getitem pos (k - j);
    if bool_decide (ykj < pkj - noise_max)
       || bool_decide (pkj + noise_max < ykj)
    then mret (Break true)
    else mret (Next outside)) false.

(** Lines 31-54: the window grows while the estimate fits; the loop state
    is [velocity]. *)
Definition foaw_velocity (n : Z) (best : bool) (k : Z) : res Qc :=
  for_in (range 1 (Z.min n k)) (λ i velocity,
    b ← foaw_slope best k i;
    outside ← foaw_outside k i b;
    if outside : bool then mret (Break velocity)
    else mret (Next b)) 0.

End Foaw.

Definition foaw (pos : list Qc) (sr noise_max : Qc) (n : Z) (best : bool)
  : res (list Qc) :=
  T ← pdiv 1 sr;
  let result := zeros (length pos) in
  for_in (range 0 (len pos)) (λ k result,
    velocity ← foaw_velocity pos T noise_max n best k;
    result ← setitem result k velocity;
    mret (Next result)) result.

(** ** Median filter *)

(** numpy's [median]: the middle of the sorted window, the mean of the two
    middle values when the window has an even size, and [nan] (here [None])
    on an empty window. *)
Definition median (w : list Qc) : option Qc :=
  let s := merge_sort Qcle w in
  let h := (length s / 2)%nat in
  if bool_decide (length s = 0%nat) then None
  else if Nat.even (length s) then
    a ← s !! (h - 1)%nat; b ← s !! h; mret ((a + b) / float 2)
  else s !! h.

(** The result array holds doubles, [nan] among them: a cell is [Some q] or
    [None] for [nan]. *)
Definition median_filter (pos : list Qc) (n : Z) : res (list (option Qc)) :=
  let result := Some <$> zeros (length pos) in
  for_in (range 1 (len pos)) (λ k result,
    result ← setitem result k (median (slice pos (Z.max (k - n) 0) k));
    mret (Next result)) result.

(** ** Levant's differentiator *)

Section Levant.

(** numpy's [sqrt] is a parameter of the development. *)
Variable sqrt : Qc → Qc.

(** The pair it returns is (du1/dt, dx/dt). *)
Definition f (alpha Lambda p u1 x : Qc) : Qc * Qc :=
  let e := x - p in
  (- alpha * sign e, u1 - Lambda * sqrt (Qcabs e) * sign e).

(** The loop state of [levant]: [u1], [x] and the result array. *)
Definition levant_state : Type := Qc * Qc * list Qc.

(** Lines 147-154 *)
Definition levant_rk4 (pos : list Qc) (T alpha Lambda : Qc) (k : Z)
  (st : levant_state) : res (ctl levant_state) :=
  let '(u1, x, result) := st in
  pk ← getitem pos k;
  let '(k1du1, k1dx) := f alpha Lambda pk u1 x in
  pk ← getitem pos k;
  let '(k2du1, k2dx) :=
    f alpha Lambda pk (u1 + (T / float 2) * k1du1) (x + (T / float 2) * k1dx) in
  pk ← getitem pos k;
  let '(k3du1, k3dx) :=
    f alpha Lambda pk (u1 + (T / float 2) * k2du1) (x + (T / float 2) * k2dx) in
  pk ← getitem pos k;
  let '(k4du1, k4dx) := f alpha Lambda pk (u1 + T * k3du1) (x + T * k3dx) in
  let u1 := u1 + (T / float 6)
                 * (k1du1 + float 2 * k2du1 + float 2 * k3du1 + k4du1) in
  let u := (1 / float 6) * (k1dx + float 2 * k2dx + float 2 * k3dx + k4dx) in
  let x := x + u * T in
  result ← setitem result k u;
  mret (Next (u1, x, result)).

(** Lines 157-163 *)
Definition levant_rk2 (pos : list Qc) (T alpha Lambda : Qc) (k : Z)
  (st : levant_state) : res (ctl levant_state) :=
  let '(u1, x, result) := st in
  pk ← getitem pos k;
  let '(k1du1, k1dx) := f alpha Lambda pk u1 x in
  let tu1 := u1 + k1du1 * (T / float 2) in
  let tx := x + k1dx * (T / float 2) in
  pk ← getitem pos k;
  let '(k2du1, k2dx) := f alpha Lambda pk tu1 tx in
  let u1 := u1 + k2du1 * T in
  let x := x + k2dx * T in
  result ← setitem result k k2dx;
  mret (Next (u1, x, result)).

(** Lines 166-169 *)
Definition levant_rk1 (pos : list Qc) (T alpha Lambda : Qc) (k : Z)
  (st : levant_state) : res (ctl levant_state) :=
  let '(u1, x, result) := st in
  pk ← getitem pos k;
  let '(k1du1, k1dx) := f alpha Lambda pk u1 x in
  let u1 := u1 + k1du1 * T in
  let x := x + k1dx * T in
  result ← setitem result k k1dx;
  mret (Next (u1, x, result)).

Definition levant (pos : list Qc) (sr C : Qc) (alpha Lambda : option Qc)
  (rk : Z) : res (list Qc) :=
  T ← pdiv 1 sr;
  let result := zeros (length pos) in
  let alpha := match alpha with None => Q2Qc (11 # 10) * C | Some a => a end in
  let Lambda := match Lambda with None => sqrt C | Some l => l end in
  let x := 0 in
  let u1 := 0 in
  '(_, _, result) ←
    (if bool_decide (rk = 4%Z) then
       for_in (range 0 (len pos)) (levant_rk4 pos T alpha Lambda)
              (u1, x, result)
     else if bool_decide (rk = 2%Z) then
       for_in (range 0 (len pos)) (levant_rk2 pos T alpha Lambda)
              (u1, x, result)
     else if bool_decide (rk = 1%Z) then
       for_in (range 0 (len pos)) (levant_rk1 pos T alpha Lambda)
              (u1, x, result)
     else mret (u1, x, result));
  mret result.

End Levant.

(** ** The sliding mid-range and mean filters

    [maxmin] and [avgfilt] build their result in a Python list, one
    [append] per turn.  [maxmin] can fail in one way only, the [ValueError]
    of [max] and [min] on an empty sequence: it returns an [option], [None]
    for that error.  [avgfilt] never fails: numpy's [average] of an empty
    sequence is [nan], a cell [None] as in [median_filter]. *)

(** [max(l)] *)
Definition py_max (l : list Qc) : option Qc :=
  match l with
  | [] => None
  | x :: l' => Some (foldl (λ m y, if bool_decide (m < y) then y else m) x l')
  end.

(** [min(l)] *)
Definition py_min (l : list Qc) : option Qc :=
  match l with
  | [] => None
  | x :: l' => Some (foldl (λ m y, if bool_decide (y < m) then y else m) x l')
  end.

(** numpy's [average(l)], the mean. *)
Definition average (l : list Qc) : option Qc :=
  match l with
  | [] => None
  | _ => Some (sum l / float (len l))
  end.

(** [z or None]: an integer is false when it is 0. *)
Definition or_none (z : Z) : option Z :=
  if bool_decide (z = 0%Z) then None else Some z.

(** [a[lo:hi]] where [hi] may be [None], the end of the array. *)
Definition slice_opt {A : Type} (a : list A) (lo : Z) (hi : option Z) : list A :=
  match hi with
  | Some h => slice a lo h
  | None => slice a lo (len a)
  end.

(** [zip] of the unpacked list [ls]: the tuples of the entries at the same
    position, as many as the shortest list has; none when there is no
    list. *)
Definition zip_star {A : Type} (ls : list (list A)) : list (list A) :=
  match ls with
  | [] => []
  | l0 :: ls' =>
      (λ t, omap (λ l : list A, l !! t) ls)
        <$> seq 0 (foldr (λ l m, length l `min` m)%nat (length l0) ls')
  end.

(** The windows of the second loop: [[x[n-j:-j or None] for j in range(n)]],
    zipped. *)
Definition sliding_windows (x : list Qc) (n : Z) : list (list Qc) :=
  zip_star ((λ j, slice_opt x (n - j) (or_none (- j))) <$> range 0 n).

Definition maxmin (x : list Qc) (n : Z) : option (list Qc) :=
  r1 ← mapM (λ i,
         mx ← py_max (slice x (Z.max 0 (i - n)) (i + 1));
         mn ← py_min (slice x (Z.max 0 (i - n)) (i + 1));
         mret ((mx + mn) / float 2)) (range 0 n);
  r2 ← mapM (λ y,
         mx ← py_max y;
         mn ← py_min y;
         mret ((mx + mn) / float 2)) (sliding_windows x n);
  mret (r1 ++ r2).

Definition avgfilt (x : list Qc) (n : Z) : list (option Qc) :=
  ((λ i, average (slice x (Z.max 0 (i - n)) (i + 1))) <$> range 0 n)
  ++ (average <$> sliding_windows x n).

(** ** The least-squares coefficients

    [leastsquares] for a polynomial degree [N >= 0] and [M >= 1] points,
    where every array has the shape the source expects.  A matrix is the
    list of its rows.  scipy's [inv] is a parameter; it returns [None] for
    the [LinAlgError] of a singular matrix, the one way [leastsquares] can
    fail.  The integer arrays are kept in [Z] up to the matrix [A]. *)

Abbreviation matrix := (list (list Qc)).

(** The inner product of two vectors. *)
Definition dotp (u v : list Qc) : Qc := sum (zip_with Qcmult u v).

(** [X.T] *)
Definition transpose {A : Type} (X : list (list A)) : list (list A) :=
  zip_star X.

(** [dot(X, Y)] of two matrices. *)
Definition dot_mm (X Y : matrix) : matrix :=
  (λ row, (λ col, dotp row col) <$> transpose Y) <$> X.

(** [dot(v, Y)] of a vector and a matrix. *)
Definition dot_vm (v : list Qc) (Y : matrix) : list Qc :=
  (λ col, dotp v col) <$> transpose Y.

(** Line 20: [A], with [A[i][j] = (i+1) ** j]. *)
Definition ls_matrix (N M : Z) : matrix :=
  (λ row : list Z, float <$> row)
    <$> zip_with (zip_with Z.pow)
          (transpose (replicate (Z.to_nat (N + 1)) (range 1 (M + 1))))
          (replicate (Z.to_nat M) (range 0 (N + 1))).

(** Line 22: [qdot]. *)
Definition ls_qdot (N M : Z) : list Qc :=
  float <$> zip_with Z.mul (range 0 (N + 1))
              ([0%Z] ++ ((λ e, M ^ e)%Z <$> range 0 N)).

Definition leastsquares (inv : matrix → option matrix) (N M : Z)
  : option (list Qc) :=
  let A := ls_matrix N M in
  P ← inv (dot_mm (transpose A) A);
  let Aplus := dot_mm P (transpose A) in
  let qdot := ls_qdot N M in
  let hdot := dot_vm qdot Aplus in
  mret (reverse hdot).

(** * The formulas of the specification

    What the specification says the estimators compute, written on the
    samples themselves; the theorems below compare them with the code. *)

(** The sample at position [z], for positions inside the array. *)
Definition sample (pos : list Qc) (z : Z) : Qc :=
  default 0 (pos !! Z.to_nat z).

(** The sum of [g j] for [j = 0..m]. *)
Fixpoint sigma (g : Z → Qc) (m : nat) : Qc :=
  match m with
  | O => g 0%Z
  | S m' => sigma g m' + g (Z.of_nat (S m'))
  end.

(** The samples of the causal window of [n] samples that ends at position
    [m]: positions [max(0, m-n+1), ..., m], as far as the sequence goes. *)
Definition causal_window (x : list Qc) (n m : Z) : list Qc :=
  sample x <$> range (Z.max 0 (m - n + 1)) (Z.min (m + 1) (len x)).

(** The mid-range of a window: the mean of its greatest and least value. *)
Definition midrange (w : list Qc) : option Qc :=
  mx ← py_max w; mn ← py_min w; mret ((mx + mn) / float 2).








Section FoawSpec.

Variable pos : list Qc.
Variable T : Qc.
Variable noise_max : Qc.

(** end-fit: [(pos[k] - pos[k-i]) / (i·T)] *)
Definition end_fit (k i : Z) : Qc :=
  (sample pos k - sample pos (k - i)) / (float i * T).

(** best-fit:
    [(i·Σ pos[k-j] − 2·Σ j·pos[k-j]) / (T·i·(i+1)·(i+2)/6)], sums over
    [j = 0..i] *)
Definition best_fit (k i : Z) : Qc :=
  (float i * sigma (λ j, sample pos (k - j)) (Z.to_nat i)
   - float 2 * sigma (λ j, float j * sample pos (k - j)) (Z.to_nat i))
  / (T * float i * float (i + 1) * float (i + 2) / float 6).

Definition trial_slope (best : bool) (k i : Z) : Qc :=
  if best then best_fit k i else end_fit k i.

(** The line of slope [b] through [pos[k]], projected back [j] steps. *)
Definition projection (k : Z) (b : Qc) (j : Z) : Qc :=
  sample pos k - b * float j * T.

(** The projection lies in
    [[pos[k-j] − noise_max, pos[k-j] + noise_max]]. *)
Definition within_margin (k : Z) (b : Qc) (j : Z) : Prop :=
  sample pos (k - j) - noise_max ≤ projection k b j
  ∧ projection k b j ≤ sample pos (k - j) + noise_max.

(** The window of size parameter [i] passes validation with slope [b]:
    every interior offset [j = 1..i-1] is within the margin. *)
Definition fits (k i : Z) (b : Qc) : Prop :=
  ∀ j, (1 ≤ j ≤ i - 1)%Z → within_margin k b j.

End FoawSpec.

Section LevantSpec.

Variable sqrt : Qc → Qc.
Variable T alpha Lambda : Qc.

(** The observer state [(u1, x)]. *)
Definition observer : Type := Qc * Qc.

(** Euler: one evaluation of the vector field; the output is its [dx/dt]. *)
Definition euler_step (p : Qc) (s : observer) : observer * Qc :=
  let '(u1, x) := s in
  let '(du1, dx) := f sqrt alpha Lambda p u1 x in
  ((u1 + T * du1, x + T * dx), dx).

(** Midpoint: evaluate at [(x, u1)], take a half-step with that derivative,
    evaluate again there, advance a full step with the second-stage
    derivative; the output is the second-stage [dx/dt]. *)
Definition midpoint_step (p : Qc) (s : observer) : observer * Qc :=
  let '(u1, x) := s in
  let '(du1_1, dx_1) := f sqrt alpha Lambda p u1 x in
  let '(du1_2, dx_2) :=
    f sqrt alpha Lambda p (u1 + T / float 2 * du1_1) (x + T / float 2 * dx_1) in
  ((u1 + T * du1_2, x + T * dx_2), dx_2).

(** Classical Runge-Kutta: four evaluations, weights 1, 2, 2, 1 over 6; the
    state advances by [T] times the weighted combination, and the output is
    the weighted combination of the four [dx/dt]. *)
Definition rk4_step (p : Qc) (s : observer) : observer * Qc :=
  let '(u1, x) := s in
  let '(du1_1, dx_1) := f sqrt alpha Lambda p u1 x in
  let '(du1_2, dx_2) :=
    f sqrt alpha Lambda p (u1 + T / float 2 * du1_1) (x + T / float 2 * dx_1) in
  let '(du1_3, dx_3) :=
    f sqrt alpha Lambda p (u1 + T / float 2 * du1_2) (x + T / float 2 * dx_2) in
  let '(du1_4, dx_4) :=
    f sqrt alpha Lambda p (u1 + T * du1_3) (x + T * dx_3) in
  let du1 := (du1_1 + float 2 * du1_2 + float 2 * du1_3 + du1_4) / float 6 in
  let dx := (dx_1 + float 2 * dx_2 + float 2 * dx_3 + dx_4) / float 6 in
  ((u1 + T * du1, x + T * dx), dx).

(** The outputs of an observer that takes one step per sample, each step a
    function of the state before it and of the sample alone. *)
Fixpoint observe (step : Qc → observer → observer * Qc) (samples : list Qc)
    (s : observer) : list Qc :=
  match samples with
  | [] => []
  | p :: rest => let '(s', out) := step p s in out :: observe step rest s'
  end.

(** The state of that observer before step [k]. *)
Fixpoint state_at (step : Qc → observer → observer * Qc) (samples : list Qc)
    (s : observer) (k : nat) {struct k} : observer :=
  match k, samples with
  | S k', p :: rest => state_at step rest (step p s).1 k'
  | _, _ => s
  end.

End LevantSpec.

(** A step is odd when negating the sample and the state negates the next
    state and the output. *)
Definition odd_step (step : Qc → observer → observer * Qc) : Prop :=
  ∀ p u1 x,
    step (- p) (- u1, - x)
    = ((- (step p (u1, x)).1.1, - (step p (u1, x)).1.2), - (step p (u1, x)).2).

(** The coefficients [levant] derives from [C] when they are not given. *)
Definition levant_alpha (C : Qc) (alpha : option Qc) : Qc :=
  match alpha with
  | Some a => a
  | None => Q2Qc (11 # 10) * C
  end.

Definition levant_Lambda (sqrt : Qc → Qc) (C : Qc) (Lambda : option Qc) : Qc :=
  match Lambda with
  | Some l => l
  | None => sqrt C
  end.

(** * Sample inputs *)

(** The triangle wave of the specification's concrete scenario. *)
Definition triangle : list Qc := float <$> [0; 1; 2; 3; 2; 1; 0]%Z.

(** A second position sequence: [triangle] from position 2 on, after other
    samples, and one more at the end. *)
Definition triangle' : list Qc := float <$> [9; 9; 2; 3; 2; 1; 0; 5]%Z.


(** A square root to run [levant] with: exact on the squares of integers. *)
Definition isqrt (q : Qc) : Qc := float (Z.sqrt (Qfloor q)).

(** The inverse of a matrix of two rows and two columns, to run
    [leastsquares] with [N = 1]. *)
Definition inv2 (X : matrix) : option matrix :=
  match X with
  | [[a; b]; [c; d]] =>
      let det := a * d - b * c in
      if bool_decide (det = 0) then None
      else Some [[d / det; - b / det]; [- c / det; a / det]]
  | _ => None
  end.

(** * Properties *)

(** ** The error monad and the array primitives *)

Lemma bind_Ok {A B : Type} (a : A) (k : A → res B) : (Ok a ≫= k) = k a.
Proof. reflexivity. Qed.

Lemma bind_Raise {A B : Type} (e : exn) (k : A → res B) :
  (Raise e ≫= k) = Raise e.
Proof. reflexivity. Qed.

Lemma norm_index_nonneg {A : Type} (a : list A) (z : Z) :
  (0 ≤ z)%Z → norm_index a z = z.
Proof. intros Hz. unfold norm_index. rewrite bool_decide_false; [done | lia]. Qed.

Lemma getitem_lookup {A : Type} (a : list A) (z : Z) (x : A) :
  (0 ≤ z)%Z → a !! Z.to_nat z = Some x → getitem a z = Ok x.
Proof.
  intros Hz Hx. unfold getitem. rewrite norm_index_nonneg by done.
  rewrite bool_decide_true by done. by rewrite Hx.
Qed.

Lemma getitem_sample (pos : list Qc) (z : Z) :
  (0 ≤ z < len pos)%Z → getitem pos z = Ok (sample pos z).
Proof.
  intros Hz. unfold len in Hz.
  destruct (lookup_lt_is_Some_2 pos (Z.to_nat z)) as [x Hx]; [lia |].
  rewrite (getitem_lookup pos z x) by (done || lia).
  unfold sample. by rewrite Hx.
Qed.

Lemma setitem_insert {A : Type} (a : list A) (z : Z) (v : A) :
  (0 ≤ z < len a)%Z → setitem a z v = Ok (<[Z.to_nat z := v]> a).
Proof.
  intros Hz. unfold setitem. rewrite norm_index_nonneg by lia.
  by rewrite bool_decide_true.
Qed.

Lemma zeros_length (n : nat) : length (zeros n) = n.
Proof. apply length_replicate. Qed.

Lemma range_cons (a b : Z) :
  (a < b)%Z → range a b = a :: range (a + 1) b.
Proof.
  intros Hab. unfold range. rewrite seqZ_cons by lia.
  do 2 f_equal; lia.
Qed.

Lemma range_nil (a b : Z) : (b ≤ a)%Z → range a b = [].
Proof. intros Hab. unfold range. apply seqZ_nil. lia. Qed.

Lemma elem_of_range (a b i : Z) : i ∈ range a b ↔ (a ≤ i < b)%Z.
Proof. unfold range. rewrite elem_of_seqZ. lia. Qed.

(** ** Loops *)

(** A loop whose body never raises returns. *)
Lemma for_in_returns {S : Type} (l : list Z) (body : Z → S → res (ctl S)) :
  (∀ i s, i ∈ l → ∃ c, body i s = Ok c) →
  ∀ s, ∃ s', for_in l body s = Ok s'.
Proof.
  induction l as [| i l IH]; intros Hbody s; simpl; [by eexists |].
  destruct (Hbody i s) as [c Hc]; [by left |]. rewrite Hc.
  destruct c as [s1 | s1]; [| by eexists].
  apply IH. intros j t Hj. apply Hbody. by right.
Qed.

(** A search loop: the flag starts at [False], and the first [i] that
    satisfies [p] sets it and leaves the loop. *)
Lemma for_in_search (l : list Z) (body : Z → bool → res (ctl bool))
    (p : Z → bool) :
  (∀ i s, i ∈ l → body i s = Ok (if p i then Break true else Next s)) →
  for_in l body false = Ok (existsb p l).
Proof.
  induction l as [| i l IH]; intros Hbody; simpl; [done |].
  rewrite Hbody by (by left).
  destruct (p i); simpl; [done |].
  apply IH. intros j t Hj. apply Hbody. by right.
Qed.

(** A loop that fills the array [r] cell by cell: [r[k] = g(k)] for [k] from
    [lo] up. *)
Lemma for_in_fill {A : Type} (g : Z → res A) (m : nat) :
  ∀ (lo : Z) (r : list A),
    (0 ≤ lo)%Z → (lo + Z.of_nat m ≤ len r)%Z →
    (∀ k, (lo ≤ k < lo + Z.of_nat m)%Z → ∃ v, g k = Ok v) →
    ∃ r', for_in (seqZ lo (Z.of_nat m))
            (λ k r, v ← g k; r ← setitem r k v; mret (Next r)) r = Ok r'
          ∧ length r' = length r
          ∧ (∀ k, (lo ≤ k < lo + Z.of_nat m)%Z →
                  ∃ v, g k = Ok v ∧ r' !! Z.to_nat k = Some v)
          ∧ (∀ j : nat, (Z.of_nat j < lo)%Z → r' !! j = r !! j).
Proof.
  induction m as [| m IH]; intros lo r Hlo Hlen Hg.
  - exists r. rewrite seqZ_nil by lia. simpl.
    split; [done |]. split; [done |]. split; [| done]. intros k Hk. lia.
  - rewrite seqZ_cons by lia. simpl.
    destruct (Hg lo) as [v Hv]; [lia |]. rewrite Hv, bind_Ok.
    rewrite setitem_insert by lia. rewrite bind_Ok. simpl.
    replace (Z.pred (Z.of_nat (S m))) with (Z.of_nat m) by lia.
    destruct (IH (Z.succ lo) (<[Z.to_nat lo := v]> r)) as (r' & Hr' & Hl & Hin & Hout).
    + lia.
    + unfold len in *. rewrite length_insert. lia.
    + intros k Hk. apply Hg. lia.
    + exists r'. split; [done |]. split; [by rewrite Hl, length_insert |].
      split.
      * intros k Hk. destruct (decide (k = lo)) as [-> | Hne].
        -- exists v. split; [done |].
           rewrite Hout by lia. apply list_lookup_insert_eq.
           unfold len in Hlen. lia.
        -- apply Hin. lia.
      * intros j Hj. rewrite Hout by lia.
        apply list_lookup_insert_ne. lia.
Qed.

(** ** Arithmetic *)

Lemma float_nonzero (z : Z) : z ≠ 0%Z → float z ≠ 0.
Proof.
  intros Hz Heq. apply Hz. apply Z2Qc_inj. by rewrite Z2Qc_inj_0.
Qed.

Lemma Qcmult_nonzero (x y : Qc) : x ≠ 0 → y ≠ 0 → x * y ≠ 0.
Proof. intros Hx Hy Hxy. by destruct (Qcmult_integral _ _ Hxy). Qed.

Lemma Qcinv_nonzero (x : Qc) : x ≠ 0 → / x ≠ 0.
Proof.
  intros Hx Hinv. pose proof (Qcmult_inv_r x Hx) as H1.
  rewrite Hinv, Qcmult_0_r in H1. discriminate H1.
Qed.

Lemma Qcdiv_nonzero (x y : Qc) : x ≠ 0 → y ≠ 0 → x / y ≠ 0.
Proof. intros Hx Hy. apply Qcmult_nonzero; [done | by apply Qcinv_nonzero]. Qed.

Lemma pdiv_Ok (a b : Qc) : b ≠ 0 → pdiv a b = Ok (a / b).
Proof. intros Hb. unfold pdiv. by rewrite bool_decide_false. Qed.

Lemma pdiv_zero (a : Qc) : pdiv a 0 = Raise ZeroDivisionError.
Proof. reflexivity. Qed.

(** The sample interval [T = 1/sr] of a sample rate that is not zero. *)
Lemma interval_nonzero (sr : Qc) : sr ≠ 0 → 1 / sr ≠ 0.
Proof. intros Hsr. apply Qcdiv_nonzero; [done | done]. Qed.

Lemma sum_snoc (l : list Qc) (x : Qc) : sum (l ++ [x]) = sum l + x.
Proof. unfold sum. by rewrite foldl_app. Qed.

Lemma sum_range_sigma (g : Z → Qc) (m : nat) :
  sum (g <$> range 0 (Z.of_nat m + 1)) = sigma g m.
Proof.
  unfold range. induction m as [| m IH].
  - rewrite seqZ_cons, seqZ_nil by lia. unfold sum. simpl. ring.
  - replace (Z.of_nat (S m) + 1 - 0)%Z with (Z.of_nat (S (S m))) by lia.
    rewrite seqZ_S, fmap_app. simpl fmap at 2.
    rewrite sum_snoc. simpl sigma.
    replace (Z.of_nat (S m)) with (Z.of_nat m + 1 - 0)%Z at 1 by lia.
    by rewrite IH.
Qed.

Lemma sigma_ext (g h : Z → Qc) (m : nat) :
  (∀ j, g j = h j) → sigma g m = sigma h m.
Proof. intros Hgh. induction m as [| m IH]; simpl; by rewrite ?IH, Hgh. Qed.

Lemma mapM_Ok {A B : Type} (g : A → res B) (h : A → B) (l : list A) :
  (∀ j, j ∈ l → g j = Ok (h j)) → mapM g l = Ok (h <$> l).
Proof.
  induction l as [| j l IH]; intros Hg; simpl; [done |].
  rewrite Hg by (by left). rewrite bind_Ok.
  rewrite IH; [done |]. intros j' Hj'. apply Hg. by right.
Qed.

Lemma existsb_false_iff (p : Z → bool) (l : list Z) :
  existsb p l = false ↔ ∀ j, j ∈ l → p j = false.
Proof.
  induction l as [| i l IH]; simpl.
  - split; [| done]. intros _ j Hj. inversion Hj.
  - rewrite orb_false_iff, IH. split.
    + intros [Hi Hl] j Hj. inversion Hj; subst; auto.
    + intros H. split; [apply H; by left |]. intros j Hj. apply H. by right.
Qed.

(** ** FOAW *)

Section FoawFacts.

Variable pos : list Qc.
Variable T noise_max : Qc.
Hypothesis T_nonzero : T ≠ 0.

Lemma foaw_slope_end (k i : Z) :
  (0 ≤ k < len pos)%Z → (1 ≤ i ≤ k)%Z →
  foaw_slope pos T false k i = Ok (end_fit pos T k i).
Proof.
  intros Hk Hi. unfold foaw_slope, end_fit.
  rewrite !getitem_sample by lia. rewrite !bind_Ok.
  apply pdiv_Ok. apply Qcmult_nonzero; [apply float_nonzero; lia | done].
Qed.

Lemma foaw_slope_best (k i : Z) :
  (0 ≤ k < len pos)%Z → (1 ≤ i ≤ k)%Z →
  foaw_slope pos T true k i = Ok (best_fit pos T k i).
Proof.
  intros Hk Hi. unfold foaw_slope, best_fit.
  rewrite (mapM_Ok (λ j, getitem pos (k - j)) (λ j, sample pos (k - j))).
  2:{ intros j Hj. apply elem_of_range in Hj. apply getitem_sample. lia. }
  rewrite bind_Ok.
  rewrite (mapM_Ok _ (λ j, sample pos (k - j) * float j)).
  2:{ intros j Hj. apply elem_of_range in Hj.
      rewrite getitem_sample by lia. by rewrite bind_Ok. }
  rewrite bind_Ok.
  replace (i + 1)%Z with (Z.of_nat (Z.to_nat i) + 1)%Z at 1 2 by lia.
  rewrite !sum_range_sigma.
  rewrite (sigma_ext (λ j, sample pos (k - j) * float j)
                     (λ j, float j * sample pos (k - j)))
    by (intros j; apply Qcmult_comm).
  apply pdiv_Ok.
  apply Qcdiv_nonzero; [| by apply float_nonzero].
  repeat apply Qcmult_nonzero; try done; apply float_nonzero; lia.
Qed.

Lemma foaw_slope_trial (best : bool) (k i : Z) :
  (0 ≤ k < len pos)%Z → (1 ≤ i ≤ k)%Z →
  foaw_slope pos T best k i = Ok (trial_slope pos T best k i).
Proof.
  destruct best; [apply foaw_slope_best | apply foaw_slope_end].
Qed.

(** The check loop returns, and its flag says whether a middle point is
    outside the margin. *)
Lemma foaw_outside_fits (k i : Z) (b : Qc) :
  (0 ≤ k < len pos)%Z → (i ≤ k)%Z →
  ∃ o, foaw_outside pos T noise_max k i b = Ok o
       ∧ (o = false ↔ fits pos T noise_max k i b).
Proof.
  intros Hk Hi. unfold foaw_outside.
  rewrite (for_in_search _ _ (λ j,
    bool_decide (projection pos T k b j < sample pos (k - j) - noise_max)
    || bool_decide (sample pos (k - j) + noise_max < projection pos T k b j))).
  2:{ intros j s Hj. apply elem_of_range in Hj.
      rewrite !getitem_sample by lia. rewrite !bind_Ok.
      unfold projection. by destruct (_ || _). }
  eexists. split; [done |].
  rewrite existsb_false_iff. unfold fits, within_margin.
  split.
  - intros H j Hj. specialize (H j). rewrite elem_of_range in H.
    specialize (H ltac:(lia)). apply orb_false_iff in H as [H1 H2].
    apply bool_decide_eq_false in H1, H2. by rewrite !Qcle_ngt.
  - intros H j Hj. apply elem_of_range in Hj.
    destruct (H j) as [H1 H2]; [lia |].
    apply orb_false_iff. split; apply bool_decide_eq_false; by apply Qcle_ngt.
Qed.

(** One turn of the loop over the window sizes. *)
Lemma foaw_turn_fit (best : bool) (k i : Z) (velocity : Qc) :
  (0 ≤ k < len pos)%Z → (1 ≤ i ≤ k)%Z →
  fits pos T noise_max k i (trial_slope pos T best k i) →
  (b ← foaw_slope pos T best k i;
   outside ← foaw_outside pos T noise_max k i b;
   if outside : bool then mret (Break velocity) else mret (Next b))
  = Ok (Next (trial_slope pos T best k i)).
Proof.
  intros Hk Hi Hfit. rewrite foaw_slope_trial by done. rewrite bind_Ok.
  destruct (foaw_outside_fits k i (trial_slope pos T best k i)) as (o & -> & Ho);
    [done | lia |].
  rewrite bind_Ok. apply Ho in Hfit. by subst o.
Qed.

Lemma foaw_turn_reject (best : bool) (k i : Z) (velocity : Qc) :
  (0 ≤ k < len pos)%Z → (1 ≤ i ≤ k)%Z →
  ¬ fits pos T noise_max k i (trial_slope pos T best k i) →
  (b ← foaw_slope pos T best k i;
   outside ← foaw_outside pos T noise_max k i b;
   if outside : bool then mret (Break velocity) else mret (Next b))
  = Ok (Break velocity).
Proof.
  intros Hk Hi Hfit. rewrite foaw_slope_trial by done. rewrite bind_Ok.
  destruct (foaw_outside_fits k i (trial_slope pos T best k i)) as (o & -> & Ho);
    [done | lia |].
  rewrite bind_Ok. destruct o; [done |]. exfalso. by apply Hfit, Ho.
Qed.

Lemma foaw_velocity_returns (n : Z) (best : bool) (k : Z) :
  (0 ≤ k < len pos)%Z →
  ∃ v, foaw_velocity pos T noise_max n best k = Ok v.
Proof.
  intros Hk. unfold foaw_velocity. apply for_in_returns.
  intros i s Hi. apply elem_of_range in Hi.
  rewrite foaw_slope_trial by lia. rewrite bind_Ok.
  destruct (foaw_outside_fits k i (trial_slope pos T best k i)) as (o & -> & _);
    [done | lia |].
  rewrite bind_Ok. destruct o; by eexists.
Qed.

End FoawFacts.

(** A loop over [range a b] that accepts every [i' < i] and leaves at [i]
    ends with the value accepted last. *)
Lemma for_in_first_reject (body : Z → Qc → res (ctl Qc)) (sl : Z → Qc)
    (b i : Z) (d : nat) :
  ∀ (a : Z) (v0 : Qc),
    d = Z.to_nat (i - a) → (a ≤ i < b)%Z →
    (∀ i' s, (a ≤ i' < i)%Z → body i' s = Ok (Next (sl i'))) →
    (∀ s, body i s = Ok (Break s)) →
    for_in (range a b) body v0
    = Ok (if bool_decide (i = a) then v0 else sl (i - 1)%Z).
Proof.
  induction d as [| d IH]; intros a v0 Hd Hi Hacc Hrej.
  - assert (i = a) as -> by lia. rewrite range_cons by lia. simpl.
    rewrite Hrej. by rewrite bool_decide_true.
  - rewrite range_cons by lia. simpl. rewrite Hacc by lia.
    rewrite (IH (a + 1)%Z) by (done || lia || (intros; apply Hacc; lia)).
    rewrite (bool_decide_false (i = a)) by lia.
    case_bool_decide as Hia; [| done]. do 2 f_equal. lia.
Qed.


(** [foaw] returns for every sample rate but 0, and cell [k] of its result
    is the velocity of step [k]. *)
Lemma foaw_cells (pos : list Qc) (sr noise_max : Qc) (n : Z) (best : bool) :
  sr ≠ 0 →
  ∃ r, foaw pos sr noise_max n best = Ok r
       ∧ length r = length pos
       ∧ ∀ k, (0 ≤ k < len pos)%Z →
           ∃ v, foaw_velocity pos (1 / sr) noise_max n best k = Ok v
                ∧ r !! Z.to_nat k = Some v.
Proof.
  intros Hsr. unfold foaw. rewrite pdiv_Ok by done. rewrite bind_Ok.
  unfold range, len. rewrite Z.sub_0_r.
  destruct (for_in_fill (foaw_velocity pos (1 / sr) noise_max n best)
              (length pos) 0 (zeros (length pos)))
    as (r & Hr & Hl & Hin & _).
  - done.
  - unfold len. rewrite zeros_length. lia.
  - intros k Hk. apply foaw_velocity_returns; [by apply interval_nonzero |].
    unfold len. lia.
  - exists r. split; [done |]. split.
    + rewrite Hl. apply zeros_length.
    + intros k Hk. apply Hin. unfold len in Hk. lia.
Qed.

Lemma float_100_nonzero : float 100 ≠ 0.
Proof. apply float_nonzero. lia. Qed.

(** C1: in [foaw], at step [k] and trial window size [i], the check loop
    returns, and it reports [outside] exactly when some interior offset
    [j = 1..i-1] has its projection [pos[k] - b*j*T] outside
    [[pos[k-j] - noise_max, pos[k-j] + noise_max]]; and when the windows
    before [i] pass and window [i] is rejected, the loop over [i] stops and
    [result[k]] is the slope accepted last: the slope of window [i-1], or 0
    when [i = 1] and no window passed. *)
Theorem foaw_window_rejected (pos : list Qc) (sr noise_max : Qc) (n : Z)
    (best : bool) (k i : Z) :
  sr ≠ 0 → (0 ≤ k < len pos)%Z → (1 ≤ i < Z.min n k)%Z →
  (∀ b, ∃ o, foaw_outside pos (1 / sr) noise_max k i b = Ok o
             ∧ (o = true ↔ ¬ fits pos (1 / sr) noise_max k i b))
  ∧ ((∀ i', (1 ≤ i' < i)%Z →
        fits pos (1 / sr) noise_max k i' (trial_slope pos (1 / sr) best k i')) →
     ¬ fits pos (1 / sr) noise_max k i (trial_slope pos (1 / sr) best k i) →
     ∃ r, foaw pos sr noise_max n best = Ok r
          ∧ r !! Z.to_nat k
            = Some (if bool_decide (i = 1%Z) then 0
                    else trial_slope pos (1 / sr) best k (i - 1))).
Proof.
  intros Hsr Hk Hi. pose proof (interval_nonzero sr Hsr) as HT. split.
  - intros b.
    destruct (foaw_outside_fits pos (1 / sr) noise_max k i b) as (o & Ho & Hfit);
      [done | lia |].
    exists o. split; [done |]. rewrite <- Hfit. by destruct o.
  - intros Hacc Hrej.
    destruct (foaw_cells pos sr noise_max n best Hsr) as (r & Hr & _ & Hcell).
    exists r. split; [done |].
    destruct (Hcell k Hk) as (v & Hv & ->). f_equal.
    unfold foaw_velocity in Hv.
    rewrite (for_in_first_reject _ (trial_slope pos (1 / sr) best k)
               (Z.min n k) i (Z.to_nat (i - 1))) in Hv.
    + by injection Hv as <-.
    + done.
    + lia.
    + intros i' s Hi'. apply foaw_turn_fit; [done | done | lia |].
      apply Hacc. lia.
    + intros s. apply foaw_turn_reject; [done | done | lia | done].
Qed.


(** C3: in [foaw] with [best=True], the trial slope of window size
    parameter [i] at step [k] is
    [(i * sum_{j=0..i} pos[k-j] - 2 * sum_{j=0..i} j*pos[k-j])
     / (T * i * (i+1) * (i+2) / 6)] with [T = 1/sr]. *)
Theorem foaw_best_fit_slope (pos : list Qc) (sr : Qc) (n k i : Z) :
  sr ≠ 0 → (0 ≤ k < len pos)%Z → i ∈ range 1 (Z.min n k) →
  foaw_slope pos (1 / sr) true k i
  = Ok ((float i * sigma (λ j, sample pos (k - j)) (Z.to_nat i)
         - float 2 * sigma (λ j, float j * sample pos (k - j)) (Z.to_nat i))
        / (1 / sr * float i * float (i + 1) * float (i + 2) / float 6)).
Proof.
  intros Hsr Hk Hi. apply elem_of_range in Hi.
  rewrite foaw_slope_best; [done | by apply interval_nonzero | done | lia].
Qed.


(** C7: for a position sequence of length at least 2, [foaw] returns
    [result[0] = 0] and [result[1] = 0], whatever [noise_max], [n] and the
    scoring variant. *)
Theorem foaw_first_two_zero (pos : list Qc) (sr noise_max : Qc) (n : Z)
    (best : bool) :
  sr ≠ 0 → (2 ≤ length pos)%nat →
  ∃ r, foaw pos sr noise_max n best = Ok r
       ∧ r !! 0%nat = Some 0 ∧ r !! 1%nat = Some 0.
Proof.
  intros Hsr Hlen.
  destruct (foaw_cells pos sr noise_max n best Hsr) as (r & Hr & _ & Hcell).
  exists r. split; [done |].
  assert (∀ k, (0 ≤ k ≤ 1)%Z → r !! Z.to_nat k = Some 0) as Hzero.
  { intros k Hk. destruct (Hcell k) as (v & Hv & ->); [unfold len; lia |].
    unfold foaw_velocity in Hv. rewrite range_nil in Hv by lia.
    simpl in Hv. by injection Hv as <-. }
  split; [apply (Hzero 0%Z) | apply (Hzero 1%Z)]; lia.
Qed.

(** ** Median filter *)

Lemma slice_range (pos : list Qc) (lo hi : Z) :
  (0 ≤ lo)%Z → (0 ≤ hi ≤ len pos)%Z →
  slice pos lo hi = sample pos <$> range lo hi.
Proof.
  intros Hlo Hhi. unfold slice, clip_index, range, len in *.
  rewrite !norm_index_nonneg by lia.
  apply list_eq. intros j. rewrite list_lookup_fmap.
  destruct (decide (Z.of_nat j < hi - lo)%Z) as [Hj | Hj].
  - rewrite lookup_take_lt by lia. rewrite lookup_drop.
    rewrite lookup_seqZ_lt by lia. simpl. unfold sample.
    replace (Z.to_nat (lo + Z.of_nat j))
      with (Z.to_nat (0 `max` (lo `min` Z.of_nat (length pos))) + j)%nat by lia.
    destruct (lookup_lt_is_Some_2 pos
      (Z.to_nat (0 `max` (lo `min` Z.of_nat (length pos))) + j)) as [x ->];
      [lia | done].
  - rewrite lookup_take_ge by lia. by rewrite lookup_seqZ_ge by lia.
Qed.

(** The median of a window that is not empty is a number. *)
Lemma median_is_Some (w : list Qc) : w ≠ [] → is_Some (median w).
Proof.
  intros Hw. unfold median.
  assert (length (merge_sort Qcle w) = length w) as Hlen.
  { apply Permutation_length, merge_sort_Permutation. }
  set (s := merge_sort Qcle w) in *.
  assert (length s ≠ 0%nat) as Hpos.
  { rewrite Hlen. by destruct w. }
  rewrite bool_decide_false by done.
  destruct (Nat.even (length s)) eqn:Heven.
  - apply Nat.even_spec in Heven as [h Hh].
    replace (length s / 2)%nat with h
      by (rewrite Hh, Nat.mul_comm; symmetry; apply Nat.div_mul; lia).
    destruct (lookup_lt_is_Some_2 s (h - 1)) as [a ->]; [lia |].
    destruct (lookup_lt_is_Some_2 s h) as [b ->]; [lia |].
    by eexists.
  - apply lookup_lt_is_Some_2. apply Nat.div_lt; lia.
Qed.

Lemma median_filter_cells (pos : list Qc) (n : Z) :
  ∃ r, median_filter pos n = Ok r
       ∧ length r = length pos
       ∧ r !! 0%nat = (Some <$> zeros (length pos)) !! 0%nat
       ∧ ∀ k, (1 ≤ k < len pos)%Z →
           r !! Z.to_nat k = Some (median (slice pos (Z.max (k - n) 0) k)).
Proof.
  unfold median_filter, range.
  destruct (decide (len pos ≤ 1)%Z) as [Hshort | Hlong].
  - rewrite seqZ_nil by lia. eexists. split; [done |].
    split; [by rewrite length_fmap, zeros_length |].
    split; [done |]. intros k Hk. lia.
  - destruct (for_in_fill
                (λ k, Ok (median (slice pos (Z.max (k - n) 0) k)))
                (length pos - 1) 1 (Some <$> zeros (length pos)))
      as (r & Hr & Hl & Hin & Hout).
    + done.
    + unfold len in *. rewrite length_fmap, zeros_length. lia.
    + intros k _. by eexists.
    + exists r. split.
      * replace (len pos - 1)%Z with (Z.of_nat (length pos - 1)) by
          (unfold len in *; lia).
        exact Hr.
      * split; [by rewrite Hl, length_fmap, zeros_length |].
        split; [apply Hout; lia |].
        intros k Hk. destruct (Hin k) as (v & Hv & ->); [unfold len in *; lia |].
        by injection Hv as <-.
Qed.

(** ** Levant *)

Lemma observe_length (step : Qc → observer → observer * Qc) (samples : list Qc) :
  ∀ s, length (observe step samples s) = length samples.
Proof.
  induction samples as [| p rest IH]; intros s; simpl; [done |].
  destruct (step p s) as [s' out]. simpl. by rewrite IH.
Qed.

(** Output [k] of the observer is the output of the step taken on sample [k]
    from the state before it, and that step gives the next state. *)
Lemma observe_lookup (step : Qc → observer → observer * Qc)
    (samples : list Qc) :
  ∀ (s : observer) (k : nat) (p : Qc),
    samples !! k = Some p →
    observe step samples s !! k = Some (step p (state_at step samples s k)).2
    ∧ state_at step samples s (S k) = (step p (state_at step samples s k)).1.
Proof.
  induction samples as [| p0 rest IH]; intros s k p Hp; [done |].
  destruct k as [| k].
  - simpl in Hp. injection Hp as ->. simpl.
    by destruct (step p s) as [s' out].
  - simpl in Hp. destruct (IH (step p0 s).1 k p Hp) as [Hout Hnext].
    split; [| exact Hnext].
    simpl. by destruct (step p0 s) as [s' out].
Qed.

(** A loop that steps the observer once per sample and stores each output
    in its cell produces the outputs of [observe]. *)
Lemma for_in_observe (pos : list Qc)
    (body : Z → levant_state → res (ctl levant_state))
    (step : Qc → observer → observer * Qc) :
  (∀ k p u1 x r, (0 ≤ k < len r)%Z → pos !! Z.to_nat k = Some p →
     body k (u1, x, r)
     = Ok (Next ((step p (u1, x)).1.1, (step p (u1, x)).1.2,
                 <[Z.to_nat k := (step p (u1, x)).2]> r))) →
  ∀ suf pre u1 x r,
    pos = pre ++ suf → length r = length pos →
    ∃ u1' x',
      for_in (seqZ (Z.of_nat (length pre)) (Z.of_nat (length suf))) body
             (u1, x, r)
      = Ok (u1', x', take (length pre) r ++ observe step suf (u1, x)).
Proof.
  intros Hbody. induction suf as [| p suf IH]; intros pre u1 x r Hpos Hlen.
  - rewrite seqZ_nil by done. simpl. exists u1, x.
    rewrite app_nil_r in *. rewrite take_ge by (subst pos; lia). done.
  - rewrite seqZ_cons by (simpl; lia). simpl for_in.
    rewrite (Hbody _ p).
    2:{ unfold len. rewrite Hlen, Hpos, length_app. simpl. lia. }
    2:{ rewrite Nat2Z.id, Hpos. by apply list_lookup_middle. }
    simpl observe. destruct (step p (u1, x)) as [[u1' x'] out]. simpl.
    destruct (IH (pre ++ [p]) u1' x' (<[Z.to_nat (Z.of_nat (length pre)) := out]> r))
      as (u1'' & x'' & Hloop).
    { by rewrite <- app_assoc. }
    { by rewrite length_insert. }
    exists u1'', x''.
    replace (Z.succ (Z.of_nat (length pre)))
      with (Z.of_nat (length (pre ++ [p]))) by (rewrite length_app; simpl; lia).
    replace (Z.pred (Z.of_nat (S (length suf)))) with (Z.of_nat (length suf))
      by lia.
    rewrite Hloop. do 2 f_equal.
    rewrite Nat2Z.id, length_app. simpl.
    replace (length pre + 1)%nat with (S (length pre)) by lia.
    rewrite (take_S_r _ _ out).
    2:{ apply list_lookup_insert_eq. rewrite Hlen, Hpos, length_app. simpl. lia. }
    rewrite take_insert_ge by lia. by rewrite <- app_assoc.
Qed.

Section LevantFacts.

Variable sqrt : Qc → Qc.
Variable pos : list Qc.
Variable T alpha Lambda : Qc.

Ltac levant_step_tac p Hk Hp :=
  unfold f; cbv beta iota zeta;
  rewrite !(getitem_lookup pos _ p) by (done || lia);
  repeat (rewrite bind_Ok; cbv beta iota zeta);
  rewrite setitem_insert by done; rewrite bind_Ok;
  cbn [fst snd mret res_ret];
  rewrite ?(Qcmult_comm _ (T / float 2));
  do 2 f_equal;
  repeat match goal with |- (_, _) = (_, _) => f_equal end;
  try (unfold Qcdiv; ring);
  f_equal; unfold Qcdiv; ring.

Lemma levant_rk1_euler (k : Z) (p u1 x : Qc) (r : list Qc) :
  (0 ≤ k < len r)%Z → pos !! Z.to_nat k = Some p →
  levant_rk1 sqrt pos T alpha Lambda k (u1, x, r)
  = Ok (Next ((euler_step sqrt T alpha Lambda p (u1, x)).1.1,
              (euler_step sqrt T alpha Lambda p (u1, x)).1.2,
              <[Z.to_nat k := (euler_step sqrt T alpha Lambda p (u1, x)).2]> r)).
Proof.
  intros Hk Hp. unfold levant_rk1, euler_step.
  levant_step_tac p Hk Hp.
Qed.

Lemma levant_rk2_midpoint (k : Z) (p u1 x : Qc) (r : list Qc) :
  (0 ≤ k < len r)%Z → pos !! Z.to_nat k = Some p →
  levant_rk2 sqrt pos T alpha Lambda k (u1, x, r)
  = Ok (Next ((midpoint_step sqrt T alpha Lambda p (u1, x)).1.1,
              (midpoint_step sqrt T alpha Lambda p (u1, x)).1.2,
              <[Z.to_nat k := (midpoint_step sqrt T alpha Lambda p (u1, x)).2]> r)).
Proof.
  intros Hk Hp. unfold levant_rk2, midpoint_step.
  levant_step_tac p Hk Hp.
Qed.

Lemma levant_rk4_runge_kutta (k : Z) (p u1 x : Qc) (r : list Qc) :
  (0 ≤ k < len r)%Z → pos !! Z.to_nat k = Some p →
  levant_rk4 sqrt pos T alpha Lambda k (u1, x, r)
  = Ok (Next ((rk4_step sqrt T alpha Lambda p (u1, x)).1.1,
              (rk4_step sqrt T alpha Lambda p (u1, x)).1.2,
              <[Z.to_nat k := (rk4_step sqrt T alpha Lambda p (u1, x)).2]> r)).
Proof.
  intros Hk Hp. unfold levant_rk4, rk4_step.
  levant_step_tac p Hk Hp.
Qed.

(** The loop of [levant] over all the samples, for a body that steps the
    observer. *)
Lemma levant_loop_observe
    (body : Z → levant_state → res (ctl levant_state))
    (step : Qc → observer → observer * Qc) :
  (∀ k p u1 x r, (0 ≤ k < len r)%Z → pos !! Z.to_nat k = Some p →
     body k (u1, x, r)
     = Ok (Next ((step p (u1, x)).1.1, (step p (u1, x)).1.2,
                 <[Z.to_nat k := (step p (u1, x)).2]> r))) →
  ∃ u1' x',
    for_in (range 0 (len pos)) body (0, 0, zeros (length pos))
    = Ok (u1', x', observe step pos (0, 0)).
Proof.
  intros Hbody.
  destruct (for_in_observe pos body step Hbody pos [] 0 0 (zeros (length pos)))
    as (u1' & x' & Hloop); [done | apply zeros_length |].
  exists u1', x'. unfold range, len. rewrite Z.sub_0_r. exact Hloop.
Qed.

End LevantFacts.

(** [levant] by integration order, for a sample rate that is not 0. *)
Lemma levant_observe (sqrt : Qc → Qc) (pos : list Qc) (sr C : Qc)
    (alpha Lambda : option Qc) (rk : Z) :
  sr ≠ 0 →
  levant sqrt pos sr C alpha Lambda rk
  = Ok (let a := levant_alpha C alpha in
        let L := levant_Lambda sqrt C Lambda in
        if bool_decide (rk = 4%Z) then
          observe (rk4_step sqrt (1 / sr) a L) pos (0, 0)
        else if bool_decide (rk = 2%Z) then
          observe (midpoint_step sqrt (1 / sr) a L) pos (0, 0)
        else if bool_decide (rk = 1%Z) then
          observe (euler_step sqrt (1 / sr) a L) pos (0, 0)
        else zeros (length pos)).
Proof.
  intros Hsr. unfold levant. rewrite pdiv_Ok by done. rewrite bind_Ok.
  cbv zeta.
  fold (levant_alpha C alpha). fold (levant_Lambda sqrt C Lambda).
  repeat case_bool_decide.
  - destruct (levant_loop_observe pos _ _
                (levant_rk4_runge_kutta sqrt pos (1 / sr) (levant_alpha C alpha)
                   (levant_Lambda sqrt C Lambda))) as (u1 & x & ->).
    done.
  - destruct (levant_loop_observe pos _ _
                (levant_rk2_midpoint sqrt pos (1 / sr) (levant_alpha C alpha)
                   (levant_Lambda sqrt C Lambda))) as (u1 & x & ->).
    done.
  - destruct (levant_loop_observe pos _ _
                (levant_rk1_euler sqrt pos (1 / sr) (levant_alpha C alpha)
                   (levant_Lambda sqrt C Lambda))) as (u1 & x & ->).
    done.
  - done.
Qed.

(** C4: in [levant], for a sample rate that is not 0, with [rk=2] the
    results are the outputs of the observer that at every step [k] takes the
    midpoint step on [pos[k]]: the state [(x, u1)] advances a full step [T]
    with the second-stage derivatives, evaluated at the half-step state, and
    [result[k]] is the second-stage [dx/dt]; with [rk=4] they are the outputs
    of the observer that takes the Runge-Kutta step: the state advances by
    [T] times the combination with weights 1, 2, 2, 1 over 6 and [result[k]]
    is that combination of the four [dx/dt].  Every stage of a step reads
    the same sample [pos[k]]. *)
Theorem levant_stages (sqrt : Qc → Qc) (pos : list Qc) (sr C : Qc)
    (alpha Lambda : option Qc) :
  sr ≠ 0 →
  levant sqrt pos sr C alpha Lambda 2
  = Ok (observe (midpoint_step sqrt (1 / sr) (levant_alpha C alpha)
                   (levant_Lambda sqrt C Lambda)) pos (0, 0))
  ∧ levant sqrt pos sr C alpha Lambda 4
    = Ok (observe (rk4_step sqrt (1 / sr) (levant_alpha C alpha)
                     (levant_Lambda sqrt C Lambda)) pos (0, 0)).
Proof.
  intros Hsr. split; by rewrite levant_observe.
Qed.

(** C5: for a position sequence that is not empty and valid parameters
    ([sr > 0], [noise_max >= 0], [n >= 1], [C > 0], [rk] in {1, 2, 4}),
    [foaw] with either scoring variant, [median_filter] and [levant] return
    a sequence as long as the position sequence. *)
Theorem estimators_length (sqrt : Qc → Qc) (pos : list Qc)
    (sr noise_max C : Qc) (n m rk : Z) (best : bool)
    (alpha Lambda : option Qc) :
  pos ≠ [] → 0 < sr → 0 ≤ noise_max → (1 ≤ n)%Z → (1 ≤ m)%Z → 0 < C →
  rk = 1%Z ∨ rk = 2%Z ∨ rk = 4%Z →
  (∃ r, foaw pos sr noise_max n best = Ok r ∧ length r = length pos)
  ∧ (∃ r, median_filter pos m = Ok r ∧ length r = length pos)
  ∧ (∃ r, levant sqrt pos sr C alpha Lambda rk = Ok r
          ∧ length r = length pos).
Proof.
  intros _ Hsr _ _ _ _ Hrk.
  assert (sr ≠ 0) as Hsr0.
  { intros ->. by apply (Qclt_not_eq 0 0). }
  split; [| split].
  - destruct (foaw_cells pos sr noise_max n best Hsr0) as (r & Hr & Hl & _).
    by exists r.
  - destruct (median_filter_cells pos m) as (r & Hr & Hl & _).
    by exists r.
  - eexists. split; [by apply levant_observe |]. cbv zeta.
    destruct Hrk as [-> | [-> | ->]]; simpl; apply observe_length.
Qed.

(** C8: for a position sequence that is not empty, [median_filter] returns
    [result[0] = 0] and, for every [k >= 1], [result[k]] is the median of
    the window [pos[max(k-n,0) : k]], the samples at the positions
    [max(k-n,0), ..., k-1]: [pos[k]] is not among them. *)
Theorem median_filter_window (pos : list Qc) (n : Z) :
  pos ≠ [] →
  ∃ r, median_filter pos n = Ok r
       ∧ r !! 0%nat = Some (Some 0)
       ∧ ∀ k, (1 ≤ k < len pos)%Z →
           r !! Z.to_nat k
           = Some (median (sample pos <$> range (Z.max (k - n) 0) k)).
Proof.
  intros Hpos.
  destruct (median_filter_cells pos n) as (r & Hr & _ & H0 & Hcell).
  exists r. split; [done |]. split.
  - rewrite H0. by destruct pos.
  - intros k Hk. rewrite Hcell by done.
    rewrite slice_range by lia. done.
Qed.

(** C9, as the code has it: neither estimator checks its parameters.  A call
    fails at entry exactly when the sample rate is 0, with the
    [ZeroDivisionError] of [T = 1/sr]; for every other sample rate, and
    every [noise_max], [n], [C], [alpha], [Lambda] and [rk], [foaw] and
    [levant] return a result as long as the position sequence. *)
Theorem entry_fails_on_zero_rate_only (sqrt : Qc → Qc) (pos : list Qc)
    (sr noise_max C : Qc) (n rk : Z) (best : bool)
    (alpha Lambda : option Qc) :
  (sr = 0 →
   foaw pos sr noise_max n best = Raise ZeroDivisionError
   ∧ levant sqrt pos sr C alpha Lambda rk = Raise ZeroDivisionError)
  ∧ (sr ≠ 0 →
     (∃ r, foaw pos sr noise_max n best = Ok r ∧ length r = length pos)
     ∧ (∃ r, levant sqrt pos sr C alpha Lambda rk = Ok r
             ∧ length r = length pos)).
Proof.
  split.
  - intros ->. done.
  - intros Hsr. split.
    + destruct (foaw_cells pos sr noise_max n best Hsr) as (r & Hr & Hl & _).
      by exists r.
    + eexists. split; [by apply levant_observe |]. cbv zeta.
      repeat case_bool_decide; try apply observe_length. apply zeros_length.
Qed.

(** C10: for every position sequence and every [rk] outside {1, 2, 4},
    [levant] raises no error and returns the array of [len(pos)] zeros it
    started from. *)
Theorem levant_unknown_order (sqrt : Qc → Qc) (pos : list Qc) (sr C : Qc)
    (alpha Lambda : option Qc) (rk : Z) :
  sr ≠ 0 → rk ≠ 1%Z → rk ≠ 2%Z → rk ≠ 4%Z →
  levant sqrt pos sr C alpha Lambda rk = Ok (zeros (length pos))
  ∧ length (zeros (length pos)) = length pos
  ∧ ∀ k v, zeros (length pos) !! k = Some v → v = 0.
Proof.
  intros Hsr H1 H2 H4. split; [| split].
  - rewrite levant_observe by done. cbv zeta.
    by rewrite !bool_decide_false.
  - apply zeros_length.
  - intros k v Hv. unfold zeros in Hv.
    by apply lookup_replicate in Hv as [-> _].
Qed.

(** * The estimators on the sample inputs *)


(** The specification's scenario: slope +100 on the way up, -100 on the way
    down. *)
Example foaw_triangle :
  ∃ r, foaw triangle (float 100) (Q2Qc (5 # 100)) 16 false = Ok r
       ∧ this <$> r = [0; 0; 100; 100; -100; -100; -100]%Q.
Proof. eexists. split; vm_compute; reflexivity. Qed.

Example median_filter_triangle :
  ∃ r, median_filter triangle 3 = Ok r
       ∧ (λ c : option Qc, this <$> c) <$> r
         = Some <$> [0; 0; 1 # 2; 1; 2; 2; 2]%Q.
Proof. eexists. split; vm_compute; reflexivity. Qed.

Example median_filter_empty_window :
  ∃ r, median_filter triangle 0 = Ok r
       ∧ (λ c : option Qc, this <$> c) <$> r
         = [Some 0%Q; None; None; None; None; None; None].
Proof. eexists. split; vm_compute; reflexivity. Qed.

Lemma foaw_window_rejected_witness :
  ∃ r, foaw triangle (float 100) (Q2Qc (5 # 100)) 16 false = Ok r
       ∧ r !! 4%nat = Some (trial_slope triangle (1 / float 100) false 4 1).
Proof.
  destruct (foaw_window_rejected triangle (float 100) (Q2Qc (5 # 100)) 16
              false 4 2) as [_ H].
  - apply float_100_nonzero.
  - unfold len. simpl. lia.
  - lia.
  - apply H.
    + intros i' Hi' j Hj. lia.
    + intros Hfit. destruct (Hfit 1%Z) as [Hlo _]; [lia |].
      revert Hlo. apply Qclt_not_le. vm_compute. reflexivity.
Defined.


Lemma foaw_best_fit_slope_witness :
  foaw_slope triangle (1 / float 100) true 4 2
  = Ok (best_fit triangle (1 / float 100) 4 2).
Proof.
  apply (foaw_best_fit_slope triangle (float 100) 16 4 2).
  - apply float_100_nonzero.
  - unfold len. simpl. lia.
  - apply elem_of_range. lia.
Defined.


Lemma foaw_first_two_zero_witness :
  ∃ r, foaw triangle (float 100) (Q2Qc (5 # 100)) 16 true = Ok r
       ∧ r !! 0%nat = Some 0 ∧ r !! 1%nat = Some 0.
Proof.
  apply (foaw_first_two_zero triangle (float 100) (Q2Qc (5 # 100)) 16 true).
  - apply float_100_nonzero.
  - simpl. lia.
Defined.

Lemma levant_stages_witness :
  levant isqrt triangle (float 100) 1 None None 2
  = Ok (observe (midpoint_step isqrt (1 / float 100) (levant_alpha 1 None)
                   (levant_Lambda isqrt 1 None)) triangle (0, 0))
  ∧ levant isqrt triangle (float 100) 1 None None 4
    = Ok (observe (rk4_step isqrt (1 / float 100) (levant_alpha 1 None)
                     (levant_Lambda isqrt 1 None)) triangle (0, 0)).
Proof.
  apply (levant_stages isqrt triangle (float 100) 1 None None).
  apply float_100_nonzero.
Defined.

Lemma estimators_length_witness :
  (∃ r, foaw triangle (float 100) (Q2Qc (5 # 100)) 16 true = Ok r
        ∧ length r = length triangle)
  ∧ (∃ r, median_filter triangle 5 = Ok r ∧ length r = length triangle)
  ∧ (∃ r, levant isqrt triangle (float 100) 1 None None 4 = Ok r
          ∧ length r = length triangle).
Proof.
  apply (estimators_length isqrt triangle (float 100) (Q2Qc (5 # 100)) 1
           16 5 4 true None None).
  - discriminate.
  - reflexivity.
  - discriminate.
  - lia.
  - lia.
  - reflexivity.
  - right. right. reflexivity.
Defined.

Lemma median_filter_window_witness :
  ∃ r, median_filter triangle 3 = Ok r
       ∧ r !! 0%nat = Some (Some 0)
       ∧ r !! 5%nat
         = Some (median (sample triangle <$> range (Z.max (5 - 3) 0) 5)).
Proof.
  destruct (median_filter_window triangle 3) as (r & Hr & H0 & Hcell).
  - discriminate.
  - exists r. split; [exact Hr |]. split; [exact H0 |].
    apply (Hcell 5%Z). unfold len. simpl. lia.
Defined.

(** C9 as stated fails: [foaw] takes a negative [noise_max], and a negative
    sample rate, and computes a result. *)
Lemma foaw_accepts_domain_errors :
  float (-1) < 0
  ∧ (∃ r, foaw (float <$> [0; 1; 2]%Z) (float 100) (float (-1)) 16 false = Ok r
          ∧ this <$> r = [0; 0; 100]%Q)
  ∧ float (-100) ≤ 0
  ∧ (∃ r, foaw (float <$> [0; 1; 2]%Z) (float (-100)) 0 16 false = Ok r
          ∧ this <$> r = [0; 0; -100]%Q).
Proof.
  split; [reflexivity |]. split.
  - eexists. split; vm_compute; reflexivity.
  - split; [discriminate |]. eexists. split; vm_compute; reflexivity.
Qed.

Lemma entry_fails_on_zero_rate_only_witness :
  (foaw triangle 0 (float (-1)) 16 false = Raise ZeroDivisionError
   ∧ levant isqrt triangle 0 0 None None 3 = Raise ZeroDivisionError)
  ∧ (∃ r, foaw triangle (float (-100)) (float (-1)) 16 false = Ok r
          ∧ length r = length triangle)
  ∧ (∃ r, levant isqrt triangle (float (-100)) 0 None None 3 = Ok r
          ∧ length r = length triangle).
Proof.
  split.
  - apply (entry_fails_on_zero_rate_only isqrt triangle 0 (float (-1)) 0 16 3
             false None None).
    reflexivity.
  - apply (entry_fails_on_zero_rate_only isqrt triangle (float (-100))
             (float (-1)) 0 16 3 false None None).
    apply float_nonzero. lia.
Defined.

Lemma levant_unknown_order_witness :
  levant isqrt triangle (float 100) 1 None None 3
  = Ok (zeros (length triangle))
  ∧ length (zeros (length triangle)) = length triangle
  ∧ ∀ k v, zeros (length triangle) !! k = Some v → v = 0.
Proof.
  apply (levant_unknown_order isqrt triangle (float 100) 1 None None 3).
  - apply float_100_nonzero.
  - lia.
  - lia.
  - lia.
Defined.

(** * Further properties of the estimators *)

(** ** FOAW: the window that is used *)

Lemma for_in_ext {S : Type} (l : list Z) (body body' : Z → S → res (ctl S)) :
  (∀ i s, i ∈ l → body i s = body' i s) →
  ∀ s, for_in l body s = for_in l body' s.
Proof.
  induction l as [| i l IH]; intros Hbody s; simpl; [done |].
  rewrite Hbody by (by left).
  destruct (body' i s) as [[s' | s'] | e]; try done.
  apply IH. intros j t Hj. apply Hbody. by right.
Qed.

(** A loop over [range a b] that accepts [sl i] while [acc i] holds and
    leaves at the first [i] where it does not: it ends with the start value
    when [acc a] fails, and else with [sl i] for the last [i] of the run of
    accepted values that starts at [a]. *)
Lemma for_in_largest_accepted (body : Z → Qc → res (ctl Qc)) (sl : Z → Qc)
    (acc : Z → Prop) (b : Z) (d : nat) :
  ∀ (a : Z) (v0 : Qc),
    d = Z.to_nat (b - a) →
    (∀ i s, (a ≤ i < b)%Z → acc i → body i s = Ok (Next (sl i))) →
    (∀ i s, (a ≤ i < b)%Z → ¬ acc i → body i s = Ok (Break s)) →
    (∀ i, (a ≤ i < b)%Z → acc i ∨ ¬ acc i) →
    ∃ i, (a - 1 ≤ i < Z.max a b)%Z
         ∧ for_in (range a b) body v0
           = Ok (if bool_decide (i = a - 1)%Z then v0 else sl i)
         ∧ (∀ i', (a ≤ i' ≤ i)%Z → acc i')
         ∧ ((i + 1 < b)%Z → ¬ acc (i + 1)%Z).
Proof.
  induction d as [| d IH]; intros a v0 Hd Hacc Hrej Hdec.
  - exists (a - 1)%Z. rewrite range_nil by lia. rewrite bool_decide_true by done.
    split; [lia |]. split; [done |]. split; intros; lia.
  - rewrite range_cons by lia. simpl.
    destruct (Hdec a) as [Ha | Ha]; [lia | |].
    + rewrite Hacc by (done || lia).
      destruct (IH (a + 1)%Z (sl a)) as (i & Hi & Hloop & Hall & Hnext).
      * lia.
      * intros i s Hi. apply Hacc. lia.
      * intros i s Hi. apply Hrej. lia.
      * intros i Hi. apply Hdec. lia.
      * exists i. split; [lia |]. split.
        -- rewrite Hloop. rewrite (bool_decide_false (i = a - 1)%Z) by lia.
           case_bool_decide as Hia; [| done].
           f_equal. f_equal. lia.
        -- split; [| done]. intros i' Hi'.
           destruct (decide (i' = a)) as [-> | Hne]; [done |].
           apply Hall. lia.
    + rewrite Hrej by (done || lia).
      exists (a - 1)%Z. rewrite bool_decide_true by done.
      split; [lia |]. split; [done |]. split; [intros; lia |].
      intros _. by replace (a - 1 + 1)%Z with a by lia.
Qed.

Section FoawWindow.

Variable pos : list Qc.
Variable T noise_max : Qc.
Hypothesis T_nonzero : T ≠ 0.

Lemma fits_decide (k i : Z) (b : Qc) :
  (0 ≤ k < len pos)%Z → (i ≤ k)%Z →
  fits pos T noise_max k i b ∨ ¬ fits pos T noise_max k i b.
Proof.
  intros Hk Hi.
  destruct (foaw_outside_fits pos T noise_max k i b Hk Hi) as (o & _ & Ho).
  destruct o; [right | left].
  - intros Hfit. by apply Ho in Hfit.
  - by apply Ho.
Qed.

(** The window of two samples has no middle point: it always fits. *)
Lemma fits_first (k : Z) (b : Qc) : fits pos T noise_max k 1 b.
Proof. intros j Hj. lia. Qed.

Lemma foaw_velocity_largest (n : Z) (best : bool) (k : Z) :
  (2 ≤ k < len pos)%Z → (2 ≤ n)%Z →
  ∃ i, (1 ≤ i < Z.min n k)%Z
       ∧ foaw_velocity pos T noise_max n best k
         = Ok (trial_slope pos T best k i)
       ∧ (∀ i', (1 ≤ i' ≤ i)%Z →
            fits pos T noise_max k i' (trial_slope pos T best k i'))
       ∧ ((i + 1 < Z.min n k)%Z →
          ¬ fits pos T noise_max k (i + 1) (trial_slope pos T best k (i + 1))).
Proof.
  intros Hk Hn. unfold foaw_velocity.
  destruct (for_in_largest_accepted
              (λ i velocity,
                 b ← foaw_slope pos T best k i;
                 outside ← foaw_outside pos T noise_max k i b;
                 if outside : bool then mret (Break velocity)
                 else mret (Next b))
              (trial_slope pos T best k)
              (λ i, fits pos T noise_max k i (trial_slope pos T best k i))
              (Z.min n k) (Z.to_nat (Z.min n k - 1)) 1%Z 0)
    as (i & Hi & Hloop & Hall & Hnext).
  - done.
  - intros i s Hi Hfit. apply foaw_turn_fit; [done | lia | lia | done].
  - intros i s Hi Hfit. apply foaw_turn_reject; [done | lia | lia | done].
  - intros i Hi. apply fits_decide; lia.
  - destruct (decide (i = 0%Z)) as [-> | Hi0].
    + exfalso. apply Hnext; [lia |]. apply fits_first.
    + exists i. split; [lia |]. split; [| done].
      rewrite Hloop. by rewrite bool_decide_false by lia.
Qed.

End FoawWindow.

(** ** FOAW: what the result depends on *)

Lemma sample_take (pos : list Qc) (m : nat) (z : Z) :
  (0 ≤ z < Z.of_nat m)%Z → sample (take m pos) z = sample pos z.
Proof. intros Hz. unfold sample. by rewrite lookup_take_lt by lia. Qed.


Lemma sigma_ext_le (g h : Z → Qc) (m : nat) :
  (∀ j, (0 ≤ j ≤ Z.of_nat m)%Z → g j = h j) → sigma g m = sigma h m.
Proof.
  induction m as [| m IH]; intros Hgh; simpl.
  - apply Hgh. lia.
  - rewrite IH by (intros j Hj; apply Hgh; lia). f_equal. apply Hgh. lia.
Qed.

Lemma trial_slope_local (pos pos' : list Qc) (T : Qc) (best : bool) (k i : Z) :
  (0 ≤ i)%Z →
  (∀ j, (0 ≤ j ≤ i)%Z → sample pos (k - j) = sample pos' (k - j)) →
  trial_slope pos T best k i = trial_slope pos' T best k i.
Proof.
  intros Hi Hagree. destruct best; simpl.
  - unfold best_fit.
    rewrite (sigma_ext_le (λ j, sample pos (k - j))
                          (λ j, sample pos' (k - j)))
      by (intros j Hj; apply Hagree; lia).
    rewrite (sigma_ext_le (λ j, float j * sample pos (k - j))
                          (λ j, float j * sample pos' (k - j)))
      by (intros j Hj; rewrite Hagree by lia; done).
    done.
  - unfold end_fit.
    pose proof (Hagree 0%Z ltac:(lia)) as H0. rewrite Z.sub_0_r in H0.
    by rewrite H0, (Hagree i) by lia.
Qed.

Lemma fits_local (pos pos' : list Qc) (T noise_max : Qc) (k i : Z) (b : Qc) :
  (∀ j, (0 ≤ j < i)%Z → sample pos (k - j) = sample pos' (k - j)) →
  fits pos T noise_max k i b → fits pos' T noise_max k i b.
Proof.
  intros Hagree Hfit j Hj. specialize (Hfit j Hj).
  unfold within_margin, projection in *.
  pose proof (Hagree 0%Z ltac:(lia)) as H0. rewrite Z.sub_0_r in H0.
  by rewrite <- H0, <- (Hagree j) by lia.
Qed.

(** The velocity of step [k] is the same on two position sequences whose
    trial slopes agree and whose windows pass validation alike. *)
Lemma foaw_velocity_same (pos pos' : list Qc) (T noise_max noise_max' : Qc)
    (n : Z) (best : bool) (k : Z) :
  T ≠ 0 → (0 ≤ k < len pos)%Z → (k < len pos')%Z →
  (∀ i, (1 ≤ i < Z.min n k)%Z →
     trial_slope pos T best k i = trial_slope pos' T best k i) →
  (∀ i b, (1 ≤ i < Z.min n k)%Z →
     fits pos T noise_max k i b ↔ fits pos' T noise_max' k i b) →
  foaw_velocity pos T noise_max n best k
  = foaw_velocity pos' T noise_max' n best k.
Proof.
  intros HT Hk Hk' Hslope Hfits. unfold foaw_velocity.
  apply for_in_ext. intros i s Hi. apply elem_of_range in Hi.
  rewrite !foaw_slope_trial by (done || lia). rewrite !bind_Ok.
  rewrite <- Hslope by done.
  destruct (foaw_outside_fits pos T noise_max k i
              (trial_slope pos T best k i)) as (o & -> & Ho); [done | lia |].
  destruct (foaw_outside_fits pos' T noise_max' k i
              (trial_slope pos T best k i)) as (o' & -> & Ho'); [lia | lia |].
  rewrite !bind_Ok.
  assert (o = o') as ->; [| done].
  destruct o, o'; try done.
  - assert (false = false) as H by done. apply Ho', Hfits, Ho in H; [done | lia].
  - assert (false = false) as H by done. apply Ho, Hfits, Ho' in H; [done | lia].
Qed.

Lemma foaw_velocity_local (pos pos' : list Qc) (T noise_max : Qc) (n : Z)
    (best : bool) (k : Z) :
  T ≠ 0 → (0 ≤ k < len pos)%Z → (k < len pos')%Z →
  (∀ j, (0 ≤ j < Z.min n k)%Z → sample pos (k - j) = sample pos' (k - j)) →
  foaw_velocity pos T noise_max n best k
  = foaw_velocity pos' T noise_max n best k.
Proof.
  intros HT Hk Hk' Hagree. apply foaw_velocity_same; try done.
  - intros i Hi. apply trial_slope_local; [lia |].
    intros j Hj. apply Hagree. lia.
  - intros i b Hi. split; apply fits_local; intros j Hj.
    + apply Hagree. lia.
    + symmetry. apply Hagree. lia.
Qed.

(** X1: for a sample rate that is not 0 and [n >= 2], every [result[k]],
    [k >= 2], of [foaw] is the trial slope of a window [i >= 1]: the last
    of the run of windows [1, 2, ...] that pass validation, [i] being the
    cap [min(n,k)-1] or window [i+1] the first rejected.  The window of two
    samples always passes, so such a result is never the start value 0 for
    want of a window. *)
Theorem foaw_largest_window (pos : list Qc) (sr noise_max : Qc) (n : Z)
    (best : bool) :
  sr ≠ 0 → (2 ≤ n)%Z →
  ∃ r, foaw pos sr noise_max n best = Ok r
       ∧ ∀ k, (2 ≤ k < len pos)%Z →
           ∃ i, (1 ≤ i < Z.min n k)%Z
                ∧ r !! Z.to_nat k = Some (trial_slope pos (1 / sr) best k i)
                ∧ (∀ i', (1 ≤ i' ≤ i)%Z →
                     fits pos (1 / sr) noise_max k i'
                          (trial_slope pos (1 / sr) best k i'))
                ∧ ((i + 1 < Z.min n k)%Z →
                   ¬ fits pos (1 / sr) noise_max k (i + 1)
                          (trial_slope pos (1 / sr) best k (i + 1))).
Proof.
  intros Hsr Hn.
  destruct (foaw_cells pos sr noise_max n best Hsr) as (r & Hr & _ & Hcell).
  exists r. split; [done |]. intros k Hk.
  destruct (foaw_velocity_largest pos (1 / sr) noise_max
              (interval_nonzero sr Hsr) n best k Hk Hn)
    as (i & Hi & Hv & Hall & Hnext).
  exists i. split; [done |]. split; [| done].
  destruct (Hcell k) as (v & Hv' & ->); [lia |].
  rewrite Hv in Hv'. by injection Hv' as <-.
Qed.

(** X2: with [n <= 1] no window is ever tried: [foaw] returns zeros, for
    every position sequence. *)
Theorem foaw_no_window (pos : list Qc) (sr noise_max : Qc) (n : Z)
    (best : bool) :
  sr ≠ 0 → (n ≤ 1)%Z →
  foaw pos sr noise_max n best = Ok (zeros (length pos)).
Proof.
  intros Hsr Hn.
  destruct (foaw_cells pos sr noise_max n best Hsr) as (r & -> & Hl & Hcell).
  f_equal. apply list_eq. intros j.
  destruct (decide (j < length pos)%nat) as [Hj | Hj].
  - destruct (Hcell (Z.of_nat j)) as (v & Hv & Hrj); [unfold len; lia |].
    rewrite Nat2Z.id in Hrj. rewrite Hrj.
    unfold foaw_velocity in Hv. rewrite range_nil in Hv by lia.
    injection Hv as <-. unfold zeros. by rewrite lookup_replicate_2.
  - rewrite !lookup_ge_None_2; [done | rewrite zeros_length; lia | lia].
Qed.

(** X3: [result[k]] of [foaw] depends on the last [min(n,k)] samples up to
    [pos[k]] alone: two position sequences that agree on them have the same
    [result[k]], whatever their other samples and their lengths. *)
Theorem foaw_bounded_history (pos pos' : list Qc) (sr noise_max : Qc) (n : Z)
    (best : bool) (k : Z) :
  sr ≠ 0 → (0 ≤ k < len pos)%Z → (k < len pos')%Z →
  (∀ j, (0 ≤ j < Z.min n k)%Z → sample pos (k - j) = sample pos' (k - j)) →
  ∃ r r', foaw pos sr noise_max n best = Ok r
          ∧ foaw pos' sr noise_max n best = Ok r'
          ∧ r !! Z.to_nat k = r' !! Z.to_nat k.
Proof.
  intros Hsr Hk Hk' Hagree.
  destruct (foaw_cells pos sr noise_max n best Hsr) as (r & Hr & _ & Hcell).
  destruct (foaw_cells pos' sr noise_max n best Hsr) as (r' & Hr' & _ & Hcell').
  exists r, r'. split; [done |]. split; [done |].
  destruct (Hcell k) as (v & Hv & ->); [done |].
  destruct (Hcell' k) as (v' & Hv' & ->); [lia |].
  rewrite (foaw_velocity_local pos pos') in Hv
    by (done || by apply interval_nonzero).
  rewrite Hv in Hv'. by injection Hv' as <-.
Qed.

(** X4: [foaw] is causal: its result on the first [m] samples is the first
    [m] entries of its result on the whole sequence. *)
Theorem foaw_prefix (pos : list Qc) (sr noise_max : Qc) (n : Z) (best : bool)
    (m : nat) :
  sr ≠ 0 →
  ∃ r, foaw pos sr noise_max n best = Ok r
       ∧ foaw (take m pos) sr noise_max n best = Ok (take m r).
Proof.
  intros Hsr.
  destruct (foaw_cells pos sr noise_max n best Hsr) as (r & Hr & Hl & Hcell).
  destruct (foaw_cells (take m pos) sr noise_max n best Hsr)
    as (r' & Hr' & Hl' & Hcell').
  exists r. split; [done |]. rewrite Hr'. f_equal.
  apply list_eq. intros j. rewrite length_take in Hl'.
  destruct (decide (j < m `min` length pos)%nat) as [Hj | Hj].
  - rewrite lookup_take_lt by lia.
    destruct (Hcell (Z.of_nat j)) as (v & Hv & Hrj); [unfold len; lia |].
    destruct (Hcell' (Z.of_nat j)) as (v' & Hv' & Hrj').
    { unfold len. rewrite length_take. lia. }
    rewrite Nat2Z.id in Hrj, Hrj'. rewrite Hrj, Hrj'. f_equal.
    rewrite (foaw_velocity_local (take m pos) pos) in Hv'.
    + rewrite Hv in Hv'. by injection Hv' as <-.
    + by apply interval_nonzero.
    + unfold len. rewrite length_take. lia.
    + unfold len. lia.
    + intros i Hi. apply sample_take. lia.
  - rewrite !lookup_ge_None_2; [done | rewrite length_take; lia | lia].
Qed.

(** ** FOAW: offsets and degenerate margins *)










(** ** Median filter: values it returns *)

Lemma float_2_pos : 0 < float 2.
Proof. reflexivity. Qed.

(** The mean of two values between [lo] and [hi] is between them. *)
Lemma midpoint_between (lo hi a b : Qc) :
  lo ≤ a → a ≤ hi → lo ≤ b → b ≤ hi →
  lo ≤ (a + b) / float 2 ∧ (a + b) / float 2 ≤ hi.
Proof.
  intros Hla Hah Hlb Hbh.
  assert (0 ≤ / float 2) as Hinv.
  { apply Qclt_le_weak, Qcinv_pos, float_2_pos. }
  assert (float 2 = 1 + 1) as H2.
  { unfold float. by rewrite <- Z2Qc_inj_1, <- Z2Qc_inj_add. }
  assert ((1 + 1 : Qc) ≠ 0) as Hn2.
  { rewrite <- H2. apply float_nonzero. lia. }
  assert (∀ x : Qc, x = (x + x) / float 2) as Hmid.
  { intros x. rewrite H2. field. done. }
  split.
  - rewrite (Hmid lo) at 1. unfold Qcdiv.
    apply Qcmult_le_compat_r; [by apply Qcplus_le_compat | done].
  - rewrite (Hmid hi) at 1. unfold Qcdiv.
    apply Qcmult_le_compat_r; [by apply Qcplus_le_compat | done].
Qed.

(** The median is a value of the window, or the mean of two. *)
Lemma median_cases (w : list Qc) (q : Qc) :
  median w = Some q →
  q ∈ w ∨ ∃ a b, a ∈ w ∧ b ∈ w ∧ q = (a + b) / float 2.
Proof.
  unfold median.
  assert (∀ i x, merge_sort Qcle w !! i = Some x → x ∈ w) as Hin.
  { intros i x Hx. rewrite <- (merge_sort_Permutation Qcle w).
    by apply list_elem_of_lookup_2 in Hx. }
  set (s := merge_sort Qcle w) in *.
  case_bool_decide; [done |].
  destruct (Nat.even (length s)).
  - destruct (s !! (length s / 2 - 1)%nat) as [a |] eqn:Ha; [| done].
    destruct (s !! (length s / 2)%nat) as [b |] eqn:Hb; [| done].
    simpl. intros [= <-]. right. exists a, b. eauto.
  - intros Hq. left. eauto.
Qed.

Lemma median_singleton (x : Qc) : median [x] = Some x.
Proof. reflexivity. Qed.

Lemma median_filter_window_cells (pos : list Qc) (n : Z) :
  ∃ r, median_filter pos n = Ok r
       ∧ ∀ k, (1 ≤ k < len pos)%Z →
           r !! Z.to_nat k
           = Some (median (sample pos <$> range (Z.max (k - n) 0) k)).
Proof.
  destruct (median_filter_cells pos n) as (r & Hr & _ & _ & Hcell).
  exists r. split; [done |]. intros k Hk.
  rewrite Hcell by done. by rewrite slice_range by lia.
Qed.

(** X7: with [n >= 1], [result[k]] of [median_filter], [k >= 1], is a number
    (not [nan]) that lies between any two bounds of the samples of its
    window [pos[max(k-n,0)], ..., pos[k-1]]. *)
Theorem median_filter_bounded (pos : list Qc) (n : Z) (lo hi : Qc) (k : Z) :
  (1 ≤ n)%Z → (1 ≤ k < len pos)%Z →
  (∀ z, (Z.max (k - n) 0 ≤ z < k)%Z → lo ≤ sample pos z ∧ sample pos z ≤ hi) →
  ∃ r q, median_filter pos n = Ok r
         ∧ r !! Z.to_nat k = Some (Some q)
         ∧ lo ≤ q ∧ q ≤ hi.
Proof.
  intros Hn Hk Hbound.
  destruct (median_filter_window_cells pos n) as (r & Hr & Hcell).
  specialize (Hcell k Hk).
  set (w := sample pos <$> range (Z.max (k - n) 0) k) in *.
  assert (∀ x, x ∈ w → lo ≤ x ∧ x ≤ hi) as Hw.
  { intros x Hx. apply list_elem_of_fmap in Hx as (z & -> & Hz).
    apply elem_of_range in Hz. by apply Hbound. }
  destruct (median_is_Some w) as [q Hq].
  { unfold w. rewrite range_cons by lia. done. }
  exists r, q. split; [done |]. split; [by rewrite Hcell, Hq |].
  apply median_cases in Hq as [Hq | (a & b & Ha & Hb & ->)].
  - by apply Hw.
  - destruct (Hw a Ha), (Hw b Hb). by apply midpoint_between.
Qed.

(** X8: with [n <= 0] every window is empty: [median_filter] returns [nan]
    in every cell but [result[0]]. *)
Theorem median_filter_nan (pos : list Qc) (n : Z) :
  (n ≤ 0)%Z →
  ∃ r, median_filter pos n = Ok r
       ∧ ∀ k, (1 ≤ k < len pos)%Z → r !! Z.to_nat k = Some None.
Proof.
  intros Hn.
  destruct (median_filter_window_cells pos n) as (r & Hr & Hcell).
  exists r. split; [done |]. intros k Hk.
  rewrite Hcell by done. by rewrite range_nil by lia.
Qed.

(** X9: with [n = 1], [median_filter] is a delay of one sample:
    [result[k] = pos[k-1]] for every [k >= 1]. *)
Theorem median_filter_delay (pos : list Qc) :
  ∃ r, median_filter pos 1 = Ok r
       ∧ ∀ k, (1 ≤ k < len pos)%Z →
           r !! Z.to_nat k = Some (Some (sample pos (k - 1))).
Proof.
  destruct (median_filter_window_cells pos 1) as (r & Hr & Hcell).
  exists r. split; [done |]. intros k Hk.
  rewrite Hcell by done.
  replace (Z.max (k - 1) 0) with (k - 1)%Z by lia.
  rewrite range_cons, range_nil by lia. done.
Qed.

(** ** Levant: Euler steps, prefixes, the zero input *)

Lemma observe_take (step : Qc → observer → observer * Qc) (samples : list Qc) :
  ∀ (m : nat) (s : observer),
    observe step (take m samples) s = take m (observe step samples s).
Proof.
  induction samples as [| p rest IH]; intros m s.
  - by destruct m.
  - destruct m as [| m]; [done |]. simpl.
    destruct (step p s) as [s' out]. simpl. by rewrite IH.
Qed.

Lemma zeros_take (m n : nat) : take m (zeros n) = zeros (m `min` n).
Proof. unfold zeros. apply take_replicate. Qed.



(** X10: with [rk=1] and a sample rate that is not 0, the results of
    [levant] are the outputs of the observer that takes one Euler step per
    sample: one evaluation of [f] on [pos[k]], the state advanced by [T]
    times it, [result[k]] its [dx/dt]. *)
Theorem levant_euler (sqrt : Qc → Qc) (pos : list Qc) (sr C : Qc)
    (alpha Lambda : option Qc) :
  sr ≠ 0 →
  levant sqrt pos sr C alpha Lambda 1
  = Ok (observe (euler_step sqrt (1 / sr) (levant_alpha C alpha)
                   (levant_Lambda sqrt C Lambda)) pos (0, 0)).
Proof. intros Hsr. by rewrite levant_observe. Qed.

(** X11: [levant] is causal, for every [rk]: its result on the first [m]
    samples is the first [m] entries of its result on the whole sequence. *)
Theorem levant_prefix (sqrt : Qc → Qc) (pos : list Qc) (sr C : Qc)
    (alpha Lambda : option Qc) (rk : Z) (m : nat) :
  sr ≠ 0 →
  ∃ r, levant sqrt pos sr C alpha Lambda rk = Ok r
       ∧ levant sqrt (take m pos) sr C alpha Lambda rk = Ok (take m r).
Proof.
  intros Hsr. eexists. split; [by apply levant_observe |].
  rewrite levant_observe by done. f_equal. cbv zeta.
  repeat case_bool_decide; try apply observe_take.
  by rewrite zeros_take, length_take.
Qed.


(** ** Levant: symmetry *)

Lemma Qcopp_neg (x : Qc) : - x < 0 ↔ 0 < x.
Proof.
  rewrite (Qclt_minus_iff (- x) 0).
  by replace (0 + - - x) with x by ring.
Qed.

Lemma Qcopp_pos (x : Qc) : 0 < - x ↔ x < 0.
Proof.
  rewrite (Qclt_minus_iff x 0).
  by replace (0 + - x) with (- x) by ring.
Qed.

Lemma sign_opp (x : Qc) : sign (- x) = - sign x.
Proof.
  unfold sign.
  destruct (decide (x < 0)) as [Hneg | Hneg];
    destruct (decide (0 < x)) as [Hpos | Hpos].
  - exfalso. by apply (Qclt_not_le _ _ Hneg), Qclt_le_weak.
  - rewrite (bool_decide_false (- x < 0)) by (by rewrite Qcopp_neg).
    rewrite (bool_decide_true (0 < - x)) by (by rewrite Qcopp_pos).
    rewrite (bool_decide_true (x < 0)) by done. ring.
  - rewrite (bool_decide_true (- x < 0)) by (by rewrite Qcopp_neg).
    rewrite (bool_decide_false (x < 0)) by done.
    by rewrite (bool_decide_true (0 < x)) by done.
  - rewrite (bool_decide_false (- x < 0)) by (by rewrite Qcopp_neg).
    rewrite (bool_decide_false (0 < - x)) by (by rewrite Qcopp_pos).
    rewrite (bool_decide_false (x < 0)) by done.
    rewrite (bool_decide_false (0 < x)) by done. ring.
Qed.

Lemma Qcabs_opp (x : Qc) : Qcabs (- x) = Qcabs x.
Proof.
  unfold Qcabs.
  destruct (decide (x < 0)) as [Hneg | Hneg];
    destruct (decide (0 < x)) as [Hpos | Hpos].
  - exfalso. by apply (Qclt_not_le _ _ Hneg), Qclt_le_weak.
  - rewrite (bool_decide_false (- x < 0)) by (by rewrite Qcopp_neg).
    by rewrite (bool_decide_true (x < 0)) by done.
  - rewrite (bool_decide_true (- x < 0)) by (by rewrite Qcopp_neg).
    rewrite (bool_decide_false (x < 0)) by done. ring.
  - rewrite (bool_decide_false (- x < 0)) by (by rewrite Qcopp_neg).
    rewrite (bool_decide_false (x < 0)) by done.
    assert (x = 0) as -> by (apply Qcle_antisym; by apply Qcnot_lt_le).
    ring.
Qed.

Lemma f_opp (sqrt : Qc → Qc) (alpha Lambda p u1 x : Qc) :
  f sqrt alpha Lambda (- p) (- u1) (- x)
  = (- (f sqrt alpha Lambda p u1 x).1, - (f sqrt alpha Lambda p u1 x).2).
Proof.
  unfold f. cbv zeta. cbn [fst snd].
  replace (- x - - p) with (- (x - p)) by ring.
  rewrite sign_opp, Qcabs_opp. f_equal; ring.
Qed.

Lemma observe_opp (step : Qc → observer → observer * Qc) (samples : list Qc) :
  odd_step step →
  ∀ u1 x,
    observe step (Qcopp <$> samples) (- u1, - x)
    = Qcopp <$> observe step samples (u1, x).
Proof.
  intros Hodd. induction samples as [| p rest IH]; intros u1 x; [done |].
  simpl. rewrite Hodd. destruct (step p (u1, x)) as [[u1' x'] out]. simpl.
  by rewrite IH.
Qed.

Lemma euler_step_odd (sqrt : Qc → Qc) (T alpha Lambda : Qc) :
  odd_step (euler_step sqrt T alpha Lambda).
Proof.
  intros p u1 x. unfold euler_step. rewrite f_opp.
  destruct (f sqrt alpha Lambda p u1 x) as [d1 e1]. cbn [fst snd].
  repeat f_equal; ring.
Qed.

Lemma midpoint_step_odd (sqrt : Qc → Qc) (T alpha Lambda : Qc) :
  odd_step (midpoint_step sqrt T alpha Lambda).
Proof.
  intros p u1 x. unfold midpoint_step. rewrite f_opp.
  destruct (f sqrt alpha Lambda p u1 x) as [d1 e1]. cbn [fst snd].
  replace (- u1 + T / float 2 * - d1) with (- (u1 + T / float 2 * d1)) by ring.
  replace (- x + T / float 2 * - e1) with (- (x + T / float 2 * e1)) by ring.
  rewrite f_opp.
  destruct (f sqrt alpha Lambda p _ _) as [d2 e2]. cbn [fst snd].
  repeat f_equal; ring.
Qed.

Lemma rk4_step_odd (sqrt : Qc → Qc) (T alpha Lambda : Qc) :
  odd_step (rk4_step sqrt T alpha Lambda).
Proof.
  intros p u1 x. unfold rk4_step. rewrite f_opp.
  destruct (f sqrt alpha Lambda p u1 x) as [d1 e1]. cbn [fst snd].
  replace (- u1 + T / float 2 * - d1) with (- (u1 + T / float 2 * d1)) by ring.
  replace (- x + T / float 2 * - e1) with (- (x + T / float 2 * e1)) by ring.
  rewrite f_opp.
  destruct (f sqrt alpha Lambda p _ _) as [d2 e2]. cbn [fst snd].
  replace (- u1 + T / float 2 * - d2) with (- (u1 + T / float 2 * d2)) by ring.
  replace (- x + T / float 2 * - e2) with (- (x + T / float 2 * e2)) by ring.
  rewrite f_opp.
  destruct (f sqrt alpha Lambda p _ _) as [d3 e3]. cbn [fst snd].
  replace (- u1 + T * - d3) with (- (u1 + T * d3)) by ring.
  replace (- x + T * - e3) with (- (x + T * e3)) by ring.
  rewrite f_opp.
  destruct (f sqrt alpha Lambda p _ _) as [d4 e4]. cbn [fst snd]. cbv zeta.
  repeat f_equal; unfold Qcdiv; ring.
Qed.

(** X13: [levant] is odd, for every [rk]: on the negated positions it
    returns the negated result. *)
Theorem levant_odd (sqrt : Qc → Qc) (pos : list Qc) (sr C : Qc)
    (alpha Lambda : option Qc) (rk : Z) :
  sr ≠ 0 →
  ∃ r, levant sqrt pos sr C alpha Lambda rk = Ok r
       ∧ levant sqrt (Qcopp <$> pos) sr C alpha Lambda rk = Ok (Qcopp <$> r).
Proof.
  intros Hsr. eexists. split; [by apply levant_observe |].
  rewrite levant_observe by done. f_equal. cbv zeta.
  assert ((0, 0) = (- 0, - 0) :> observer) as Hzero by (f_equal; ring).
  repeat case_bool_decide.
  - rewrite Hzero at 1. apply observe_opp, rk4_step_odd.
  - rewrite Hzero at 1. apply observe_opp, midpoint_step_odd.
  - rewrite Hzero at 1. apply observe_opp, euler_step_odd.
  - unfold zeros. rewrite length_fmap, fmap_replicate. f_equal; ring.
Qed.

(** ** The sliding filters [maxmin] and [avgfilt] *)

Lemma foldl_max_spec (l : list Qc) :
  ∀ x, let m := foldl (λ m y, if bool_decide (m < y) then y else m) x l in
       (m = x ∨ m ∈ l) ∧ x ≤ m ∧ ∀ y, y ∈ l → y ≤ m.
Proof.
  induction l as [| a l IH]; intros x; simpl.
  - split; [by left |]. split; [apply Qcle_refl |]. intros y Hy. inversion Hy.
  - destruct (IH (if bool_decide (x < a) then a else x)) as (Hin & Hle & Hall).
    case_bool_decide as Hxa.
    + split; [right; destruct Hin as [-> | Hin]; [by left | by right] |].
      split; [by apply Qclt_le_weak, (Qclt_le_trans _ a) |].
      intros y Hy. inversion Hy; subst; auto.
    + split; [destruct Hin as [-> | Hin]; [by left | right; by right] |].
      split; [done |].
      intros y Hy. inversion Hy; subst; [| auto].
      apply Qcnot_lt_le in Hxa. by apply (Qcle_trans _ x).
Qed.

Lemma foldl_min_spec (l : list Qc) :
  ∀ x, let m := foldl (λ m y, if bool_decide (y < m) then y else m) x l in
       (m = x ∨ m ∈ l) ∧ m ≤ x ∧ ∀ y, y ∈ l → m ≤ y.
Proof.
  induction l as [| a l IH]; intros x; simpl.
  - split; [by left |]. split; [apply Qcle_refl |]. intros y Hy. inversion Hy.
  - destruct (IH (if bool_decide (a < x) then a else x)) as (Hin & Hle & Hall).
    case_bool_decide as Hax.
    + split; [right; destruct Hin as [-> | Hin]; [by left | by right] |].
      split; [by apply Qclt_le_weak, (Qcle_lt_trans _ a) |].
      intros y Hy. inversion Hy; subst; auto.
    + split; [destruct Hin as [-> | Hin]; [by left | right; by right] |].
      split; [done |].
      intros y Hy. inversion Hy; subst; [| auto].
      apply Qcnot_lt_le in Hax. by apply (Qcle_trans _ x).
Qed.

(** [max] returns a value of the sequence that no value exceeds. *)
Lemma py_max_spec (l : list Qc) (m : Qc) :
  py_max l = Some m ↔ m ∈ l ∧ ∀ y, y ∈ l → y ≤ m.
Proof.
  destruct l as [| x l]; simpl.
  - split; [done |]. intros [Hm _]. inversion Hm.
  - destruct (foldl_max_spec l x) as (Hin & Hle & Hall). split.
    + intros [= <-]. split.
      * destruct Hin as [-> | Hin]; [by left | by right].
      * intros y Hy. inversion Hy; subst; auto.
    + intros [Hm Hmax]. f_equal. apply Qcle_antisym.
      * apply Hmax. destruct Hin as [-> | Hin]; [by left | by right].
      * inversion Hm; subst; auto.
Qed.

Lemma py_min_spec (l : list Qc) (m : Qc) :
  py_min l = Some m ↔ m ∈ l ∧ ∀ y, y ∈ l → m ≤ y.
Proof.
  destruct l as [| x l]; simpl.
  - split; [done |]. intros [Hm _]. inversion Hm.
  - destruct (foldl_min_spec l x) as (Hin & Hle & Hall). split.
    + intros [= <-]. split.
      * destruct Hin as [-> | Hin]; [by left | by right].
      * intros y Hy. inversion Hy; subst; auto.
    + intros [Hm Hmin]. f_equal. apply Qcle_antisym.
      * inversion Hm; subst; auto.
      * apply Hmin. destruct Hin as [-> | Hin]; [by left | by right].
Qed.

Lemma py_max_Permutation (l l' : list Qc) : l ≡ₚ l' → py_max l = py_max l'.
Proof.
  intros Hp. destruct (py_max l) as [m |] eqn:Hm.
  - symmetry. apply py_max_spec. apply py_max_spec in Hm as [Hin Hmax].
    split; [by rewrite <- Hp |]. intros y Hy. apply Hmax. by rewrite Hp.
  - destruct l; [| done]. apply Permutation_nil_l in Hp. by subst.
Qed.

Lemma py_min_Permutation (l l' : list Qc) : l ≡ₚ l' → py_min l = py_min l'.
Proof.
  intros Hp. destruct (py_min l) as [m |] eqn:Hm.
  - symmetry. apply py_min_spec. apply py_min_spec in Hm as [Hin Hmin].
    split; [by rewrite <- Hp |]. intros y Hy. apply Hmin. by rewrite Hp.
  - destruct l; [| done]. apply Permutation_nil_l in Hp. by subst.
Qed.

Lemma midrange_Permutation (l l' : list Qc) : l ≡ₚ l' → midrange l = midrange l'.
Proof.
  intros Hp. unfold midrange.
  by rewrite (py_max_Permutation l l'), (py_min_Permutation l l').
Qed.

Lemma sum_cons (x : Qc) (l : list Qc) : sum (x :: l) = x + sum l.
Proof.
  unfold sum. simpl. rewrite Qcplus_0_l.
  assert (∀ a b, foldl Qcplus (a + b) l = a + foldl Qcplus b l) as H.
  { induction l as [| y l IH]; intros a b; simpl; [done |].
    by rewrite <- IH, Qcplus_assoc. }
  rewrite <- (Qcplus_0_r x) at 1. apply H.
Qed.

Lemma sum_Permutation (l l' : list Qc) : l ≡ₚ l' → sum l = sum l'.
Proof.
  induction 1 as [| x l l' _ IH | x y l | l l' l'' _ IH1 _ IH2].
  - done.
  - by rewrite !sum_cons, IH.
  - rewrite !sum_cons. ring.
  - by rewrite IH1.
Qed.

Lemma average_Permutation (l l' : list Qc) : l ≡ₚ l' → average l = average l'.
Proof.
  intros Hp. unfold average, len.
  rewrite (sum_Permutation l l' Hp), (Permutation_length Hp).
  destruct l, l'; try done.
  - by apply Permutation_nil_l in Hp.
  - by apply Permutation_nil_r in Hp.
Qed.

Lemma fmap_ext_range {B : Type} (g h : Z → B) (a b : Z) :
  (∀ j, (a ≤ j < b)%Z → g j = h j) → g <$> range a b = h <$> range a b.
Proof.
  intros Hgh. apply list_fmap_ext. intros i j Hj. apply Hgh.
  apply elem_of_range. by apply list_elem_of_lookup_2 in Hj.
Qed.

Lemma range_length (a b : Z) : length (range a b) = Z.to_nat (b - a).
Proof. unfold range. apply length_seqZ. Qed.

(** A slice whose bounds are not negative, clipped at the end. *)
Lemma slice_clip (x : list Qc) (lo hi : Z) :
  (0 ≤ lo)%Z → (0 ≤ hi)%Z →
  slice x lo hi = sample x <$> range lo (Z.min hi (len x)).
Proof.
  intros Hlo Hhi. rewrite <- slice_range by (unfold len; lia).
  unfold slice, clip_index. rewrite !norm_index_nonneg by (unfold len; lia).
  do 3 f_equal; lia.
Qed.

(** A slice whose upper bound counts from the end. *)
Lemma slice_from_end (x : list Qc) (lo j : Z) :
  (0 ≤ lo)%Z → (1 ≤ j ≤ len x)%Z →
  slice x lo (- j) = sample x <$> range lo (len x - j).
Proof.
  intros Hlo Hj. rewrite <- slice_range by lia.
  unfold slice, clip_index, norm_index.
  rewrite (bool_decide_true (- j < 0)%Z) by lia.
  rewrite (bool_decide_false (len x - j < 0)%Z) by lia.
  do 4 f_equal; lia.
Qed.

Lemma sliding_slice (x : list Qc) (n j : Z) :
  (1 ≤ n ≤ len x)%Z → (0 ≤ j < n)%Z →
  slice_opt x (n - j) (or_none (- j))
  = sample x <$> range (n - j) (len x - j).
Proof.
  intros Hn Hj. unfold or_none. case_bool_decide as Hj0; simpl.
  - assert (j = 0%Z) as -> by lia. rewrite slice_range by lia.
    by rewrite !Z.sub_0_r.
  - apply slice_from_end; lia.
Qed.

Lemma foldr_min_le {A : Type} (ls : list (list A)) (b : nat) :
  (foldr (λ l m, length l `min` m) b ls ≤ b)%nat.
Proof. induction ls as [| l ls IH]; simpl; lia. Qed.

Lemma foldr_min_uniform {A : Type} (ls : list (list A)) (b : nat) :
  (∀ l, l ∈ ls → length l = b) →
  foldr (λ l m, length l `min` m)%nat b ls = b.
Proof.
  induction ls as [| l ls IH]; intros Hlen; simpl; [done |].
  rewrite IH by (intros l' Hl'; apply Hlen; by right).
  rewrite (Hlen l) by (by left). lia.
Qed.

Lemma zip_star_uniform {A : Type} (ls : list (list A)) (m : nat) :
  ls ≠ [] → (∀ l, l ∈ ls → length l = m) →
  zip_star ls = (λ t, omap (λ l : list A, l !! t) ls) <$> seq 0 m.
Proof.
  intros Hne Hlen. destruct ls as [| l0 ls]; [done |]. unfold zip_star.
  rewrite (Hlen l0) by (by left).
  by rewrite foldr_min_uniform by (intros l Hl; apply Hlen; by right).
Qed.

Lemma omap_lookup_range {A : Type} (L : Z → list A) (g : Z → A) (t : nat)
    (l : list Z) :
  (∀ j, j ∈ l → L j !! t = Some (g j)) →
  omap (λ w : list A, w !! t) (L <$> l) = g <$> l.
Proof.
  induction l as [| j l IH]; intros HL; [done |]. simpl.
  rewrite HL by (by left). f_equal. apply IH. intros j' Hj'. apply HL. by right.
Qed.

(** The windows of the second loop, for a sequence of at least [n] samples:
    window [t] holds [x[n+t], x[n+t-1], ..., x[t+1]]. *)
Lemma sliding_windows_long (x : list Qc) (n : Z) :
  (1 ≤ n ≤ len x)%Z →
  sliding_windows x n
  = (λ t : nat, (λ j, sample x (n + Z.of_nat t - j)) <$> range 0 n)
      <$> seq 0 (Z.to_nat (len x - n)).
Proof.
  intros Hn. unfold sliding_windows.
  rewrite (fmap_ext_range _ (λ j, sample x <$> range (n - j) (len x - j)))
    by (intros j Hj; apply sliding_slice; lia).
  rewrite (zip_star_uniform _ (Z.to_nat (len x - n))).
  - apply list_fmap_ext. intros i t Ht.
    apply lookup_seq in Ht as [-> Ht].
    apply omap_lookup_range. intros j Hj. apply elem_of_range in Hj.
    rewrite list_lookup_fmap. unfold range. rewrite lookup_seqZ_lt by lia.
    simpl. do 2 f_equal. lia.
  - by rewrite range_cons by lia.
  - intros l Hl. apply list_elem_of_fmap in Hl as (j & -> & Hj).
    apply elem_of_range in Hj. rewrite !length_fmap, !range_length. lia.
Qed.

(** No window when the sequence has fewer than [n] samples, nor when
    [n <= 0]. *)
Lemma sliding_windows_short (x : list Qc) (n : Z) :
  (len x ≤ n ∨ n ≤ 0)%Z → sliding_windows x n = [].
Proof.
  intros Hn. unfold sliding_windows.
  destruct (decide (n ≤ 0)%Z) as [Hn0 | Hn0]; [by rewrite range_nil |].
  rewrite range_cons by lia. unfold zip_star. rewrite fmap_cons.
  pose proof (foldr_min_le
    ((λ j, slice_opt x (n - j) (or_none (- j))) <$> range (0 + 1) n)
    (length (slice_opt x (n - 0) (or_none (- 0))))) as Hle.
  assert (length (slice_opt x (n - 0) (or_none (- 0))) = 0%nat) as Hzero.
  { simpl. rewrite slice_range by (unfold len in *; lia).
    rewrite length_fmap, range_length. lia. }
  rewrite Hzero in *.
  by replace (foldr _ 0%nat _) with 0%nat by lia.
Qed.

(** A window of the second loop holds the samples of the causal window, in
    the reverse order. *)
Lemma window_Permutation (g : Z → Qc) (c : Z) (n : nat) :
  (λ j, g (c - j)%Z) <$> range 0 (Z.of_nat n)
  ≡ₚ g <$> range (c - Z.of_nat n + 1) (c + 1).
Proof.
  induction n as [| n IH].
  - by rewrite !range_nil by lia.
  - unfold range at 1. rewrite Z.sub_0_r, seqZ_S, fmap_app. simpl.
    rewrite (range_cons (c - Z.of_nat (S n) + 1)) by lia. rewrite fmap_cons.
    rewrite <- Permutation_cons_append. 
    replace (c - (0 + Z.of_nat n))%Z with (c - Z.of_nat (S n) + 1)%Z by lia.
    apply Permutation_skip.
    replace (c - Z.of_nat (S n) + 1 + 1)%Z with (c - Z.of_nat n + 1)%Z by lia.
    rewrite <- IH. unfold range. by rewrite Z.sub_0_r.
Qed.

Lemma first_loop_window (x : list Qc) (n i : Z) :
  (0 ≤ i < n)%Z → slice x (Z.max 0 (i - n)) (i + 1) = causal_window x n i.
Proof.
  intros Hi. rewrite slice_clip by lia. unfold causal_window.
  do 2 f_equal. lia.
Qed.

Lemma second_loop_window (x : list Qc) (n : Z) (t : nat) :
  (1 ≤ n)%Z → (n + Z.of_nat t < len x)%Z →
  (λ j, sample x (n + Z.of_nat t - j)) <$> range 0 n
  ≡ₚ causal_window x n (n + Z.of_nat t).
Proof.
  intros Hn Ht.
  pose proof (window_Permutation (sample x) (n + Z.of_nat t) (Z.to_nat n)) as H.
  rewrite Z2Nat.id in H by lia. rewrite H. unfold causal_window.
  replace (Z.max 0 (n + Z.of_nat t - n + 1)) with (n + Z.of_nat t - n + 1)%Z
    by lia.
  by replace (Z.min (n + Z.of_nat t + 1) (len x)) with (n + Z.of_nat t + 1)%Z
    by lia.
Qed.

(** The output positions: those of the first loop, then one per window of
    the second. *)
Lemma output_positions (n l : Z) :
  (0 ≤ n)%Z → (0 ≤ l)%Z →
  range 0 n ++ ((λ t : nat, (n + Z.of_nat t)%Z) <$> seq 0 (Z.to_nat (l - n)))
  = range 0 (Z.max n l).
Proof.
  intros Hn Hl. unfold range.
  replace (Z.max n l - 0)%Z with ((n - 0) + Z.max 0 (l - n))%Z by lia.
  rewrite seqZ_app by lia. f_equal.
  unfold seqZ. replace (Z.to_nat (Z.max 0 (l - n))) with (Z.to_nat (l - n)) by lia.
  apply list_fmap_ext. intros i t _. lia.
Qed.

Lemma causal_window_nonempty (x : list Qc) (n m : Z) :
  x ≠ [] → (1 ≤ n)%Z → (0 ≤ m < Z.max n (len x))%Z →
  causal_window x n m ≠ [].
Proof.
  intros Hx Hn Hm. unfold causal_window.
  assert (1 ≤ len x)%Z by (destruct x; [done | unfold len; simpl; lia]).
  rewrite range_cons by lia. done.
Qed.

Lemma midrange_is_Some (w : list Qc) : w ≠ [] → is_Some (midrange w).
Proof. intros Hw. destruct w as [| a w]; [done |]. by eexists. Qed.

Lemma mapM_option_fmap {A B : Type} (g : A → option B) (l : list A) :
  (∀ j, j ∈ l → is_Some (g j)) →
  ∃ k, mapM g l = Some k ∧ Some <$> k = g <$> l.
Proof.
  induction l as [| j l IH]; intros Hg; simpl; [by exists [] |].
  destruct (Hg j) as [b Hb]; [by left |].
  destruct IH as (k & Hk & Hkl); [intros j' Hj'; apply Hg; by right |].
  exists (b :: k). split; [by rewrite Hb, Hk |].
  by rewrite !fmap_cons, Hkl, Hb.
Qed.

(** The windows of the two loops, one per output position. *)
Lemma filter_windows {B : Type} (h : list Qc → B) (x : list Qc) (n : Z) :
  (1 ≤ n)%Z → (∀ w w', w ≡ₚ w' → h w = h w') →
  ((λ i, h (slice x (Z.max 0 (i - n)) (i + 1))) <$> range 0 n)
  ++ (h <$> sliding_windows x n)
  = (λ m, h (causal_window x n m)) <$> range 0 (Z.max n (len x)).
Proof.
  intros Hn Hperm.
  rewrite <- (output_positions n (len x)) by (unfold len; lia).
  rewrite fmap_app. f_equal.
  - apply fmap_ext_range. intros i Hi. by rewrite first_loop_window.
  - destruct (decide (n ≤ len x)%Z) as [Hlen | Hlen].
    + rewrite sliding_windows_long by lia. rewrite <- !list_fmap_compose.
      apply list_fmap_ext. intros i t Ht. apply lookup_seq in Ht as [-> Ht].
      simpl. apply Hperm. apply second_loop_window; lia.
    + rewrite sliding_windows_short by lia.
      by replace (Z.to_nat (len x - n)) with 0%nat by lia.
Qed.

(** X14: for [n >= 1] and a sequence that is not empty, [maxmin] returns
    [max(n, len(x))] values, and value [m] is the mid-range (the mean of the
    greatest and the least) of the samples at the positions
    [max(0, m-n+1), ..., min(m, len(x)-1)]: the [n] last samples up to [m].
    The result is longer than the input when [len(x) < n]. *)
Theorem maxmin_windows (x : list Qc) (n : Z) :
  (1 ≤ n)%Z → x ≠ [] →
  ∃ r, maxmin x n = Some r
       ∧ Some <$> r
         = (λ m, midrange (causal_window x n m)) <$> range 0 (Z.max n (len x)).
Proof.
  intros Hn Hx. unfold maxmin.
  destruct (mapM_option_fmap
              (λ i, mx ← py_max (slice x (Z.max 0 (i - n)) (i + 1));
                    mn ← py_min (slice x (Z.max 0 (i - n)) (i + 1));
                    mret ((mx + mn) / float 2)) (range 0 n))
    as (r1 & -> & Hr1).
  { intros i Hi. apply elem_of_range in Hi. rewrite first_loop_window by lia.
    apply (midrange_is_Some (causal_window x n i)).
    apply causal_window_nonempty; (done || lia). }
  destruct (mapM_option_fmap
              (λ y, mx ← py_max y; mn ← py_min y; mret ((mx + mn) / float 2))
              (sliding_windows x n))
    as (r2 & -> & Hr2).
  { intros w Hw. apply (midrange_is_Some w). intros ->.
    destruct (decide (n ≤ len x)%Z) as [Hlen | Hlen].
    - rewrite sliding_windows_long in Hw by lia.
      apply list_elem_of_fmap in Hw as (t & Hw & _).
      rewrite range_cons in Hw by lia. done.
    - rewrite sliding_windows_short in Hw by lia. inversion Hw. }
  exists (r1 ++ r2). split; [done |].
  rewrite fmap_app, Hr1, Hr2.
  apply (filter_windows midrange x n Hn midrange_Permutation).
Qed.

(** X15: the edges of [maxmin]: on an empty sequence and [n >= 1] it fails
    with the [ValueError] of [max]; with [n <= 0] it returns the empty list
    for every sequence. *)
Theorem maxmin_edges (x : list Qc) (n : Z) :
  ((1 ≤ n)%Z → maxmin [] n = None)
  ∧ ((n ≤ 0)%Z → maxmin x n = Some []).
Proof.
  split; intros Hn; unfold maxmin.
  - rewrite range_cons by lia. done.
  - rewrite range_nil by lia. simpl.
    by rewrite sliding_windows_short by lia.
Qed.

(** X16: for [n >= 1], [avgfilt] returns [max(n, len(x))] values, and value
    [m] is numpy's average of the samples at the positions
    [max(0, m-n+1), ..., min(m, len(x)-1)]; on an empty sequence these are
    [n] times [nan].  With [n <= 0] it returns the empty list. *)
Theorem avgfilt_windows (x : list Qc) (n : Z) :
  ((1 ≤ n)%Z →
   avgfilt x n
   = (λ m, average (causal_window x n m)) <$> range 0 (Z.max n (len x)))
  ∧ ((n ≤ 0)%Z → avgfilt x n = []).
Proof.
  split; intros Hn; unfold avgfilt.
  - apply (filter_windows average x n Hn average_Permutation).
  - rewrite range_nil by lia. by rewrite sliding_windows_short by lia.
Qed.

(** ** The least-squares coefficients *)













(** Sums *)






















(** * The further properties on the sample inputs *)

Example maxmin_example :
  ∃ r, maxmin (float <$> [1; 5; 2; 8; 3]%Z) 3 = Some r
       ∧ this <$> r = [1; 3; 3; 5; 5]%Q.
Proof. eexists. split; vm_compute; reflexivity. Qed.

Example avgfilt_example :
  (λ c : option Qc, this <$> c) <$> avgfilt (float <$> [1; 5; 2; 8; 3]%Z) 3
  = Some <$> [1; 3; 8 # 3; 5; 13 # 3]%Q.
Proof. vm_compute. reflexivity. Qed.

Example leastsquares_example :
  ∃ h, leastsquares inv2 1 3 = Some h ∧ this <$> h = [1 # 2; 0; -1 # 2]%Q.
Proof. eexists. split; vm_compute; reflexivity. Qed.

(** With [M <= N] the matrix is singular. *)
Example leastsquares_singular : leastsquares inv2 1 1 = None.
Proof. vm_compute. reflexivity. Qed.

Lemma foaw_largest_window_witness :
  ∃ r, foaw triangle (float 100) (Q2Qc (5 # 100)) 16 true = Ok r
       ∧ ∀ k, (2 ≤ k < len triangle)%Z →
           ∃ i, (1 ≤ i < Z.min 16 k)%Z
                ∧ r !! Z.to_nat k
                  = Some (trial_slope triangle (1 / float 100) true k i)
                ∧ (∀ i', (1 ≤ i' ≤ i)%Z →
                     fits triangle (1 / float 100) (Q2Qc (5 # 100)) k i'
                          (trial_slope triangle (1 / float 100) true k i'))
                ∧ ((i + 1 < Z.min 16 k)%Z →
                   ¬ fits triangle (1 / float 100) (Q2Qc (5 # 100)) k (i + 1)
                          (trial_slope triangle (1 / float 100) true k (i + 1))).
Proof.
  apply (foaw_largest_window triangle (float 100) (Q2Qc (5 # 100)) 16 true).
  - apply float_100_nonzero.
  - lia.
Defined.

Lemma foaw_no_window_witness :
  foaw triangle (float 100) (Q2Qc (5 # 100)) 1 false
  = Ok (zeros (length triangle)).
Proof.
  apply (foaw_no_window triangle (float 100) (Q2Qc (5 # 100)) 1 false).
  - apply float_100_nonzero.
  - lia.
Defined.

Lemma foaw_bounded_history_witness :
  ∃ r r', foaw triangle (float 100) (Q2Qc (5 # 100)) 3 false = Ok r
          ∧ foaw triangle' (float 100) (Q2Qc (5 # 100)) 3 false = Ok r'
          ∧ r !! 4%nat = r' !! 4%nat.
Proof.
  apply (foaw_bounded_history triangle triangle' (float 100)
           (Q2Qc (5 # 100)) 3 false 4).
  - apply float_100_nonzero.
  - unfold len. simpl. lia.
  - unfold len. simpl. lia.
  - intros j Hj.
    assert (j = 0 ∨ j = 1 ∨ j = 2)%Z as [-> | [-> | ->]] by lia; reflexivity.
Defined.

Lemma foaw_prefix_witness :
  ∃ r, foaw triangle (float 100) (Q2Qc (5 # 100)) 16 false = Ok r
       ∧ foaw (take 4 triangle) (float 100) (Q2Qc (5 # 100)) 16 false
         = Ok (take 4 r).
Proof.
  apply (foaw_prefix triangle (float 100) (Q2Qc (5 # 100)) 16 false 4).
  apply float_100_nonzero.
Defined.


Lemma median_filter_bounded_witness :
  ∃ r q, median_filter triangle 3 = Ok r
         ∧ r !! 5%nat = Some (Some q)
         ∧ 0 ≤ q ∧ q ≤ float 3.
Proof.
  apply (median_filter_bounded triangle 3 0 (float 3) 5).
  - lia.
  - unfold len. simpl. lia.
  - intros z Hz.
    assert (z = 2 ∨ z = 3 ∨ z = 4)%Z as [-> | [-> | ->]] by lia;
      split; discriminate.
Defined.

Lemma median_filter_nan_witness :
  ∃ r, median_filter triangle 0 = Ok r
       ∧ ∀ k, (1 ≤ k < len triangle)%Z → r !! Z.to_nat k = Some None.
Proof. apply (median_filter_nan triangle 0). lia. Defined.

Lemma levant_euler_witness :
  levant isqrt triangle (float 100) 1 None None 1
  = Ok (observe (euler_step isqrt (1 / float 100) (levant_alpha 1 None)
                   (levant_Lambda isqrt 1 None)) triangle (0, 0)).
Proof.
  apply (levant_euler isqrt triangle (float 100) 1 None None).
  apply float_100_nonzero.
Defined.

Lemma levant_prefix_witness :
  ∃ r, levant isqrt triangle (float 100) 1 None None 4 = Ok r
       ∧ levant isqrt (take 3 triangle) (float 100) 1 None None 4
         = Ok (take 3 r).
Proof.
  apply (levant_prefix isqrt triangle (float 100) 1 None None 4 3).
  apply float_100_nonzero.
Defined.


Lemma levant_odd_witness :
  ∃ r, levant isqrt triangle (float 100) 1 None None 4 = Ok r
       ∧ levant isqrt (Qcopp <$> triangle) (float 100) 1 None None 4
         = Ok (Qcopp <$> r).
Proof.
  apply (levant_odd isqrt triangle (float 100) 1 None None 4).
  apply float_100_nonzero.
Defined.

Lemma maxmin_windows_witness :
  ∃ r, maxmin triangle 3 = Some r
       ∧ Some <$> r
         = (λ m, midrange (causal_window triangle 3 m))
             <$> range 0 (Z.max 3 (len triangle)).
Proof.
  apply (maxmin_windows triangle 3).
  - lia.
  - discriminate.
Defined.

Lemma maxmin_edges_witness :
  maxmin [] 3 = None ∧ maxmin triangle 0 = Some [].
Proof.
  split.
  - apply (maxmin_edges triangle 3). lia.
  - apply (maxmin_edges triangle 0). lia.
Defined.

Lemma avgfilt_windows_witness :
  avgfilt triangle 3
  = (λ m, average (causal_window triangle 3 m))
      <$> range 0 (Z.max 3 (len triangle))
  ∧ avgfilt triangle 0 = [].
Proof.
  split.
  - apply (avgfilt_windows triangle 3). lia.
  - apply (avgfilt_windows triangle 0). lia.
Defined.


(** ** FOAW on a constant position *)





